(* ===== verification/_CoqProject ===== *)
-Q . S2P
Prelude.v
JsObject.v
ForIn.v
JsNumber.v
Entities.v
Reconcile.v
InputSequencer.v
Scoreboard.v
Markup.v
Players.v
Projectiles.v
RawPayload.v
Interpolation.v
Page.v
Client.v
