(* ===== verification/Prelude.v ===== *)
(** * A verified model of the multiplayer-socket-game browser client

    The repository's only source file, [src/public/js/frontend.js], is
    the client half of a state-synchronisation protocol: it predicts the
    local player's movement, reconciles the prediction with the server's
    authoritative snapshots, keeps local copies of all players and
    projectiles in step with the snapshots, and interpolates rendered
    positions once per display frame.  The development models it as a
    set of pure functions over explicit state, one file per component.

    The program's parts and how they interact.  All state lives in
    module-level variables of frontend.js and is touched by callbacks
    that run one at a time: the socket messages [updatePlayers] and
    [updateProjectiles] rewrite the entity stores and the scoreboard
    rows from server snapshots; the 15 ms interval samples the keys,
    numbers each move and sends it; the keyboard listeners set the key
    flags; [animate] interpolates and draws.  The [updatePlayers]
    handler calls the reconciliation code for the local player, which
    trims the pending-input log the interval callback fills.

    Files, in dependency order (the _CoqProject order):
    - [Prelude] (this file): the [js_scope] notation, the handler
      outcome type [outcome] ([Normal s] or [Thrown e s]: a JS
      exception escapes with the mutations done so far), the loop
      combinator [for_each] ([for...of] that stops at an exception)
      with its invariant rules [for_each_inv], [for_each_final_inv] and
      [for_each_preorder], the hint database [client], shared lemmas on
      sorted lists.
    - [JsObject] (Section [JsObject]): a JS object used as a map
      ([frontEndPlayers], [frontEndProjectiles], the snapshot payloads)
      as an insertion-ordered association list, with property read
      [js_get], truthiness [js_has], assignment [js_set], in-place
      update [js_modify], [delete] as [js_delete], [for...in] as
      [js_keys]; [js_object_refines_gmap] relates them to stdpp's
      [gmap].
    - [ForIn] (Section [ForIn]): the JS [for...in] enumeration of an
      object its loop body deletes from (lines 50, 132), run on fuel;
      [for_in_for_each] shows it ends within one round per key plus one
      and equals [for_each] over the initial keys.
    - [JsNumber] (Module [JsNumber]): [ToString] of an integer score
      and [Number] of the [data-score] attribute (Stdlib's
      [DecimalString]), with their round trip.
    - [Entities]: the [Player] / [Projectile] records (the classes live
      outside the repository and are modelled from their constructor
      calls), the server payloads, [new_player] (lines 64-70),
      [new_projectile] (36-42), the [Drawable] class of [draw()].
    - [Reconcile] (Module [Prediction]): [findIndex], [splice], the
      replay [forEach] of lines 112-127 ([reconcile]), and the reference
      [pending_after] it refines (C1-C3).
    - [InputSequencer] (Module [Inputs]): [keys], [playerInputs],
      [sequenceNumber] as [sequencer]; the interval body [tick]
      (200-224) and the listeners [on_keydown] / [on_keyup] (227-270)
      with their guard on the local player (C4-C7).
    - [Scoreboard] (Module [Labels]): the [#playerLabels] rows as the
      DOM holds them ([data-id], the [data-score] string, the text);
      append, update, removal, and the stable sort with the source's
      comparator [compare_rows], which reads scores back with [Number]
      (C8); [rows_typed] is the rows' type invariant.
    - [Markup] (Module [Markup]): the template of line 75 and
      [innerHTML +=] through the browser's serializer and parser on the
      row fragment (modelled from the HTML standard): the append is
      [add_row] for ids and usernames without markup (C23), and a
      username with markup forges a row with any id and score (C24).
      [snapshot_markup_free] is the domain where the plain rows of
      [Scoreboard] are the DOM's.
    - [Players] (Module [UpdatePlayers]): the [updatePlayers] handler
      (58-144) as two [for_each] loops over a [view] of the state it
      touches, with the [querySelector] null cases as [Thrown]
      (C9-C14, on snapshots without markup); [updatePlayers_js] runs
      its second loop with the JS enumeration and equals it.
    - [Projectiles] (Module [UpdateProjectiles]): [updateProjectiles]
      (30-55) on well-formed payloads as two [fold_left] loops
      (C15-C16); [updateProjectiles_js] with the JS enumeration.
    - [RawPayload] (Module [RawProjectiles]): the same handler on
      entries as JSON delivers them, [velocity] possibly missing; it is
      the typed model on well-formed entries (C26) and throws midway
      otherwise (C25).
    - [Interpolation] (Module [Render]): one [animate] frame (148-170):
      the halving step [lerp_half] on rationals, the moved store and the
      draw calls handed to the canvas; [lerp_half_b64] is the step in
      binary64 ([SpecFloat]).
    - [Page] (Module [Page]): page setup (lines 12-19: the
      [devicePixelRatio || 1] fallback, the bitmap size as the integer
      an [unsigned long] attribute stores, the context scale), the
      unused centre of lines 22-23, a frame's canvas calls with the
      [clearRect] of line 150 first (C21-C22), and the render loop's
      scheduling [frame_loop]: [animationId] (147), the
      [requestAnimationFrame] of line 149 and the first [animate()] of
      line 172.
    - [Client] (Module [Client], Section [Step] over the socket id and
      the [Page] canvas): the whole state as [client], the queued frame
      callback included, every callback as one [client_step] (projectile
      snapshots as raw JSON), [reachable] states by rule induction over
      player snapshots without markup (C17-C20).

    What the theorems show.  Reconciliation computes exactly the inputs
    the server has not acknowledged, and the predicted position is the
    authoritative one plus their sum (C1-C3); the sequencer keeps its
    log strictly increasing below the counter and emits one message per
    input (C4-C7); the scoreboard sort is the stable descending sort
    (C8); on snapshots without markup the players handler never throws,
    keeps the rows and the store in one-to-one correspondence and
    leaves exactly the snapshot's ids (C9-C13); the projectile handler
    keeps exactly the snapshot's ids and advances known projectiles
    (C15-C16).  In every reachable state of the client no handler
    throws on a well-formed message, every [data-score] is an integer
    literal so the sort compares numbers and leaves the rows sorted
    after an update, and a frame callback is always queued under the
    handle [animationId] holds (C17, C18, C20).
    The findings are proved as theorems too: once the local player is
    gone a held key can never be released, so every tick keeps sending
    inputs, while the render loop, which nothing cancels, keeps running
    (C17, C19); rows of new players are not sorted (C14); below a pixel
    ratio of 1 the per-frame clear leaves strips of the canvas
    uncleared (C21); an unescaped username forges scoreboard rows (C24);
    a projectile entry without [velocity] aborts the handler halfway
    (C25); and in binary64 the smoothing reaches its target exactly
    ([lerp_half_b64_exact]), where the spec says it never does.

    Choices and domains.
    - Coordinates are rationals [Q]: the code only adds, halves and
      multiplies by the pixel ratio.  JS rounds each operation to
      binary64; for the sums of reconciliation (C3) that costs at most
      an ulp per input, but for the smoothing it changes the limit, so
      no convergence claim is made on the rational step.
    - Sequence numbers and scores are [Z]; C7 bounds the counter's
      growth (four per tick), far below 2^53, so JS numbers count
      exactly in any session.
    - [canvas.width] and [canvas.height] are [unsigned long]s: the
      product by the ratio is truncated and taken modulo 2^32 (C21,
      C22).
    - Player snapshots are restricted to ids and usernames without
      markup ([snapshot_markup_free]): there the DOM rows are the plain
      rows (C23).  A username with markup is parsed as HTML; C24 shows
      the forged rows, and a nested [div] makes the sort's
      [removeChild] of line 99 throw a NotFoundError, which the flat row
      model does not represent.
    - Every handler loop is over a finite list and structural.  The one
      definition on fuel is [for_in], the enumeration of an object the
      loop mutates; [for_in_for_each] shows that one round per key plus
      one is enough, so the handlers' [_js] variants never run out.

    Not modelled, and why.  Every line of frontend.js that changes
    state is a definition; what remains is outside the file or outside
    what a faithful rational/integer model can say.
    - The [Player] / [Projectile] classes are not in the repository:
      their fields come from the constructor calls, [draw()] is the
      [Drawable] interface, and the pixels it paints are not modelled
      (a frame is the list of canvas calls).
    - The [querySelector] / [getContext] / [io()] handles of lines 2-9
      are I/O with no state the client reads; the socket.io transport
      and the timing of callbacks are an arbitrary sequence of [event]s.
    - HTML beyond the row fragment (character references, nested
      elements): the parser model fails on them; the handlers' theorems
      are stated on snapshots without markup.
    - [NaN]: a player entry with a missing field gives [NaN]
      coordinates, and a [NaN] ratio or non-integer score has no
      counterpart in [Q] or [Z]; the [Number] model covers the integer
      literals the row invariant allows.
    - Binary64 rounding of positions, except the smoothing step
      [lerp_half_b64], which is modelled on its own.
    - The JS ordering of integer-like keys in [for...in]: keys are
      visited in insertion order.
*)

From stdpp Require Export base list gmap strings.
From Stdlib Require Export ZArith QArith Qabs Lqa Lia Sorted.

Declare Scope js_scope.
Delimit Scope js_scope with js.

(** ** JS exceptions and the outcome of a handler *)

(** The only exception the client can raise: a property access on
    [null] (a missing DOM element), which is a [TypeError]. *)
Inductive js_error : Type :=
  | TypeError (what : string).

(** A handler mutates the state in place; when it throws, the mutations
    done before the throw remain.  [Thrown e s] keeps that state. *)
Inductive outcome (S : Type) : Type :=
  | Normal (s : S)
  | Thrown (e : js_error) (s : S).
Arguments Normal {S} s.
Arguments Thrown {S} e s.

Definition obind {S : Type} (o : outcome S) (k : S -> outcome S) : outcome S :=
  match o with
  | Normal s => k s
  | Thrown e s => Thrown e s
  end.

Notation "s' <- c ;; k" := (obind c (fun s' => k))
  (at level 100, c at next level, right associativity) : js_scope.

(** The state left behind, whether the handler returned or threw. *)
Definition final_state {S : Type} (o : outcome S) : S :=
  match o with Normal s => s | Thrown _ s => s end.

Definition is_normal {S : Type} (o : outcome S) : bool :=
  match o with Normal _ => true | Thrown _ _ => false end.

(** Apply a function to the state an outcome carries. *)
Definition omap {S T : Type} (f : S -> T) (o : outcome S) : outcome T :=
  match o with Normal s => Normal (f s) | Thrown e s => Thrown e (f s) end.

Local Open Scope js_scope.

(** [for (const x of l) body(x)]: stops at the first exception. *)
Fixpoint for_each {A S : Type} (body : A -> S -> outcome S) (l : list A) (s : S)
    : outcome S :=
  match l with
  | [] => Normal s
  | x :: l' => s' <- body x s ;; for_each body l' s'
  end.

(** ** Generic lemmas *)

Create HintDb client discriminated.

Lemma obind_normal {S : Type} (s : S) (k : S -> outcome S) :
  obind (Normal s) k = k s.
Proof. reflexivity. Qed.

Lemma for_each_app {A S : Type} (body : A -> S -> outcome S) l1 l2 s :
  for_each body (l1 ++ l2) s = (s' <- for_each body l1 s ;; for_each body l2 s').
Proof.
  revert s; induction l1 as [|x l1 IH]; intros s; simpl; [done|].
  destruct (body x s); simpl; auto.
Qed.

(** A body that never throws is a [fold_left]. *)
Lemma for_each_pure {A S : Type} (f : S -> A -> S) l s :
  for_each (fun x t => Normal (f t x)) l s = Normal (fold_left f l s).
Proof. revert s; induction l as [|x l IH]; intros s; simpl; auto. Qed.

(** A property of the state left behind, normal return or exception,
    that every step keeps holds after the sequence and after the loop. *)
Lemma final_state_omap {S T : Type} (f : S -> T) (o : outcome S) :
  final_state (omap f o) = f (final_state o).
Proof. by destruct o. Qed.

Lemma obind_final_inv {S : Type} (I : S -> Prop) (c : outcome S) (k : S -> outcome S) :
  I (final_state c) -> (forall s, I s -> I (final_state (k s))) ->
  I (final_state (obind c k)).
Proof. destruct c; simpl; auto. Qed.

Lemma for_each_final_inv {A S : Type} (I : S -> Prop) (body : A -> S -> outcome S) l s :
  (forall x t, I t -> I (final_state (body x t))) -> I s -> I (final_state (for_each body l s)).
Proof.
  intros Hb. revert s; induction l as [|x l IH]; intros s Hs; simpl; [done|].
  apply obind_final_inv; auto.
Qed.

#[export] Hint Rewrite @obind_normal @for_each_app : client.

(** The loop rule: an invariant [I done s] indexed by the processed
    prefix, re-established by every body that returns normally. *)
Section LoopRule.
Context {A S : Type} (body : A -> S -> outcome S) (I : list A -> S -> Prop).

Lemma for_each_inv (l : list A) :
  (forall pre x post s, l = pre ++ x :: post -> I pre s ->
     exists s', body x s = Normal s' /\ I (pre ++ [x]) s') ->
  forall s, I [] s -> exists s', for_each body l s = Normal s' /\ I l s'.
Proof.
  intros Hstep.
  enough (forall post pre s, l = pre ++ post -> I pre s ->
            exists s', for_each body post s = Normal s' /\ I l s') as H.
  { intros s Hs. apply (H l []); auto. }
  intros post; induction post as [|x post IH]; intros pre s Hl Hs.
  - exists s. rewrite app_nil_r in Hl. subst. auto.
  - destruct (Hstep pre x post s Hl Hs) as (s' & Hb & Hs').
    simpl. rewrite Hb. simpl. apply (IH (pre ++ [x])); auto.
    rewrite Hl, <- app_assoc. reflexivity.
Qed.
End LoopRule.

(** A relation every normal run of the body establishes between its
    input and output state holds across the whole loop, when it is a
    preorder. *)
Lemma for_each_preorder {A S : Type} (body : A -> S -> outcome S) (R : relation S)
    `{!PreOrder R} l s s' :
  (forall x t t', body x t = Normal t' -> R t t') ->
  for_each body l s = Normal s' -> R s s'.
Proof.
  intros Hb. revert s; induction l as [|x l IH]; intros s; simpl.
  - intros Heq. injection Heq as <-. reflexivity.
  - destruct (body x s) as [t|e t] eqn:E; simpl; [|done].
    intros Hr. transitivity t; eauto.
Qed.

(** Strictly increasing integer sequences. *)
Lemma Sorted_app_inv_r {A : Type} (R : relation A) l1 l2 :
  Sorted R (l1 ++ l2) -> Sorted R l2.
Proof.
  induction l1 as [|x l1 IH]; simpl; [done|].
  intros H. apply Sorted_inv in H as [H _]. auto.
Qed.

Lemma Sorted_last2 {A : Type} (R : relation A) l x y :
  Sorted R (l ++ [x; y]) -> R x y.
Proof. intros H. apply Sorted_app_inv_r in H. by inversion H as [|? ? _ Hd]; inversion Hd. Qed.

Lemma StronglySorted_app_inv_l {A : Type} (R : relation A) l1 l2 :
  StronglySorted R (l1 ++ l2) -> StronglySorted R l1.
Proof.
  induction l1 as [|x l1 IH]; simpl; intros H; [constructor|].
  apply StronglySorted_inv in H as [H1 H2]. constructor; auto.
  apply Forall_app in H2 as [? ?]; auto.
Qed.

Lemma StronglySorted_app_inv_r {A : Type} (R : relation A) l1 l2 :
  StronglySorted R (l1 ++ l2) -> StronglySorted R l2.
Proof.
  induction l1 as [|x l1 IH]; simpl; intros H; [done|].
  apply StronglySorted_inv in H as [H1 _]. auto.
Qed.

Lemma StronglySorted_snoc {A : Type} (R : relation A) l x :
  StronglySorted R l -> Forall (fun y => R y x) l -> StronglySorted R (l ++ [x]).
Proof.
  induction l as [|y l IH]; simpl; intros Hs Hf.
  - repeat constructor.
  - apply StronglySorted_inv in Hs as [Hs Hy]. inversion Hf; subst.
    constructor; auto. apply Forall_app; auto.
Qed.

Lemma StronglySorted_mid {A : Type} (R : relation A) l1 x l2 :
  StronglySorted R (l1 ++ x :: l2) ->
  Forall (fun y => R y x) l1 /\ Forall (R x) l2.
Proof.
  induction l1 as [|y l1 IH]; simpl; intros H.
  - apply StronglySorted_inv in H as [_ H]. auto.
  - apply StronglySorted_inv in H as [H Hy]. destruct (IH H) as [H1 H2].
    split; auto. constructor; auto.
    apply Forall_app in Hy as [_ Hy]. by inversion Hy.
Qed.

Lemma filter_all {A : Type} (P : A -> Prop) `{!forall x, Decision (P x)} (l : list A) :
  Forall P l -> filter P l = l.
Proof. induction 1; [done|]. rewrite filter_cons_True; [by f_equal|done]. Qed.

#[export] Hint Resolve StronglySorted_snoc StronglySorted_app_inv_r : client.
