(* ===== verification/JsObject.v ===== *)
(** * JS objects used as dictionaries

    [frontEndPlayers], [frontEndProjectiles] (frontend.js lines 26-27)
    and the snapshot payloads [backEndPlayers] / [backEndProjectiles]
    are plain JS objects keyed by id strings.  Their semantics is that
    of an insertion-ordered dictionary: [for (const id in o)] visits the
    keys in creation order (for the non-index keys socket ids are),
    assignment to a present key updates it in place, assignment to a
    new key appends it, and [delete] removes the key.  This file models
    such an object as an association list, and relates it to the
    abstract finite map [gmap string V] it stands for. *)

From S2P Require Import Prelude.

Abbreviation jsobj V := (list (string * V)).

Section JsObject.
Context {V : Type}.

(** [o[k]]; [None] is [undefined]. *)
Fixpoint js_get (k : string) (o : jsobj V) : option V :=
  match o with
  | [] => None
  | (k', v) :: o' => if decide (k = k') then Some v else js_get k o'
  end.

(** The truthiness test [!o[k]]: property values are objects, which
    are always truthy, so [!o[k]] holds exactly when [k] is absent. *)
Definition js_has (k : string) (o : jsobj V) : bool :=
  match js_get k o with Some _ => true | None => false end.

(** [for (const k in o)]: the keys in insertion order. *)
Definition js_keys (o : jsobj V) : list string := map fst o.

(** Mutation of a property of the object stored at [k]
    ([o[k].x += d]); the callers only use it on a present key. *)
Definition js_modify (k : string) (f : V -> V) (o : jsobj V) : jsobj V :=
  map (fun '(k', v') => if decide (k = k') then (k', f v') else (k', v')) o.

(** [o[k] = v]: in place when [k] is present, appended otherwise. *)
Definition js_set (k : string) (v : V) (o : jsobj V) : jsobj V :=
  if js_has k o then js_modify k (fun _ => v) o else o ++ [(k, v)].

(** [delete o[k]]; a no-op on a missing key. *)
Definition js_delete (k : string) (o : jsobj V) : jsobj V :=
  filter (fun kv => kv.1 <> k) o.

(** The abstract store the object stands for. *)
Definition js_to_map (o : jsobj V) : gmap string V := list_to_map o.

(** Well-formedness: a JS object never has a key twice. *)
Definition js_wf (o : jsobj V) : Prop := NoDup (js_keys o).

(** ** Lookup *)

Lemma js_get_spec k (o : jsobj V) : js_get k o = js_to_map o !! k.
Proof.
  unfold js_to_map. induction o as [|[k' v] o IH]; simpl.
  - by rewrite lookup_empty.
  - case_decide; subst.
    + by rewrite lookup_insert_eq.
    + rewrite lookup_insert_ne; auto.
Qed.

Lemma js_get_Some_In k v (o : jsobj V) : js_get k o = Some v -> (k, v) ∈ o.
Proof.
  induction o as [|[k' v'] o IH]; simpl; [done|].
  intros Hg; case_decide; simplify_eq; set_solver.
Qed.

Lemma js_get_In_wf k v (o : jsobj V) : js_wf o -> (k, v) ∈ o -> js_get k o = Some v.
Proof.
  unfold js_wf, js_keys. induction o as [|[k' v'] o IH]; simpl; intros Hnd Hin.
  - set_solver.
  - apply NoDup_cons in Hnd as [Hk Hnd].
    apply elem_of_cons in Hin as [Heq|Hin]; simplify_eq.
    + by case_decide.
    + case_decide; subst; auto.
      destruct Hk. apply list_elem_of_fmap. exists (k', v). auto.
Qed.

Lemma js_keys_spec k (o : jsobj V) : k ∈ js_keys o <-> is_Some (js_get k o).
Proof.
  unfold js_keys. induction o as [|[k' v] o IH]; simpl.
  - split; [set_solver|]. by intros [? ?].
  - rewrite elem_of_cons, IH. case_decide; subst; naive_solver.
Qed.

Lemma js_has_spec k (o : jsobj V) : js_has k o = true <-> k ∈ js_keys o.
Proof.
  rewrite js_keys_spec. unfold js_has. destruct (js_get k o); naive_solver.
Qed.

Lemma js_has_false k (o : jsobj V) : js_has k o = false <-> js_get k o = None.
Proof. unfold js_has. destruct (js_get k o); naive_solver. Qed.

(** ** Assignment *)

Lemma js_keys_modify k f (o : jsobj V) : js_keys (js_modify k f o) = js_keys o.
Proof.
  unfold js_keys, js_modify. induction o as [|[k' v] o IH]; simpl; [done|].
  case_decide; simpl; by rewrite IH.
Qed.

Lemma js_keys_set k v (o : jsobj V) :
  js_keys (js_set k v o) = if js_has k o then js_keys o else js_keys o ++ [k].
Proof.
  unfold js_set. destruct (js_has k o).
  - apply (js_keys_modify k (fun _ => v)).
  - unfold js_keys. by rewrite map_app.
Qed.

Lemma js_get_modify k k' f (o : jsobj V) :
  js_get k' (js_modify k f o) = if decide (k = k') then f <$> js_get k' o else js_get k' o.
Proof.
  induction o as [|[k'' v] o IH]; simpl; [by case_decide|].
  repeat (case_decide; simpl); subst; try done; try congruence.
Qed.

Lemma js_get_set k k' v (o : jsobj V) :
  js_get k' (js_set k v o) = if decide (k = k') then Some v else js_get k' o.
Proof.
  unfold js_set. destruct (js_has k o) eqn:Hh.
  - rewrite (js_get_modify k k' (fun _ => v)). case_decide; subst; [|done].
    unfold js_has in Hh. by destruct (js_get k' o).
  - apply js_has_false in Hh. induction o as [|[k'' v'] o IH]; simpl in *.
    + by repeat case_decide.
    + repeat case_decide; subst; try congruence; auto.
Qed.

Lemma js_set_spec k v (o : jsobj V) :
  js_to_map (js_set k v o) = <[k:=v]> (js_to_map o).
Proof.
  apply map_eq; intros k'. rewrite <- !js_get_spec, js_get_set.
  case_decide; subst.
  - by rewrite lookup_insert_eq.
  - by rewrite lookup_insert_ne, <- js_get_spec.
Qed.

Lemma js_wf_set k v (o : jsobj V) : js_wf o -> js_wf (js_set k v o).
Proof.
  unfold js_wf. rewrite js_keys_set. destruct (js_has k o) eqn:Hh; [done|].
  intros Hnd. apply NoDup_app; split; [done|]. split; [|apply NoDup_singleton].
  intros x Hx ->%list_elem_of_singleton. apply js_has_spec in Hx. congruence.
Qed.

Lemma js_wf_modify k f (o : jsobj V) : js_wf o -> js_wf (js_modify k f o).
Proof. unfold js_wf. by rewrite js_keys_modify. Qed.

(** ** Deletion *)

Lemma js_keys_delete k (o : jsobj V) :
  js_keys (js_delete k o) = filter (fun k' => k' <> k) (js_keys o).
Proof.
  unfold js_keys, js_delete. induction o as [|[k' v] o IH]; simpl; [done|].
  rewrite !filter_cons. simpl. case_decide; simpl; by rewrite IH.
Qed.

Lemma js_get_delete k k' (o : jsobj V) :
  js_get k' (js_delete k o) = if decide (k = k') then None else js_get k' o.
Proof.
  unfold js_delete. induction o as [|[k'' v] o IH]; simpl; [by case_decide|].
  rewrite filter_cons. simpl.
  repeat (case_decide; simpl); subst; try done; try congruence.
Qed.

Lemma js_delete_spec k (o : jsobj V) :
  js_to_map (js_delete k o) = delete k (js_to_map o).
Proof.
  apply map_eq; intros k'. rewrite <- !js_get_spec, js_get_delete.
  case_decide; subst.
  - by rewrite lookup_delete_eq.
  - by rewrite lookup_delete_ne, <- js_get_spec.
Qed.

Lemma js_wf_delete k (o : jsobj V) : js_wf o -> js_wf (js_delete k o).
Proof. unfold js_wf. rewrite js_keys_delete. apply NoDup_filter. Qed.

Lemma js_delete_absent k (o : jsobj V) : js_get k o = None -> js_delete k o = o.
Proof.
  unfold js_delete. induction o as [|[k' v] o IH]; simpl; [done|].
  rewrite filter_cons. simpl. intros Hg.
  case_decide as Hk; [congruence|]. rewrite decide_True by auto. f_equal. auto.
Qed.
(** The JS object refines the abstract finite map it stands for:
    property read is map lookup, assignment is map insertion and
    [delete] is map deletion, on every object. *)
Theorem js_object_refines_gmap k v (o : jsobj V) :
  js_get k o = js_to_map o !! k /\
  js_to_map (js_set k v o) = <[k:=v]> (js_to_map o) /\
  js_to_map (js_delete k o) = delete k (js_to_map o).
Proof. split_and!; [apply js_get_spec | apply js_set_spec | apply js_delete_spec]. Qed.

(** Round trips of the store: reading back a property just
    assigned gives the value assigned, and deleting a property just
    added to an object that lacked it gives back the object, key order
    included (so a [for...in] loop sees the same keys). *)
Theorem js_set_roundtrip k v (o : jsobj V) :
  js_get k (js_set k v o) = Some v /\ (js_get k o = None -> js_delete k (js_set k v o) = o).
Proof.
  split; [by rewrite js_get_set, decide_True|]. intros Hk.
  unfold js_set, js_has. rewrite Hk. unfold js_delete.
  rewrite filter_app, filter_cons_False, filter_nil, app_nil_r by (simpl; congruence).
  exact (js_delete_absent k o Hk).
Qed.
End JsObject.


#[export] Hint Resolve js_wf_set js_wf_modify js_wf_delete : client.
#[export] Hint Rewrite @js_get_set @js_get_delete @js_get_modify
  @js_keys_set @js_keys_delete @js_keys_modify : client.
