(* ===== verification/ForIn.v ===== *)
(** * [for...in] over an object the loop body mutates (lines 50, 132)

    The second loop of each snapshot handler enumerates the store with
    [for (const id in frontEndPlayers)] (line 132) or
    [for (const frontEndProjectileId in frontEndProjectiles)] (line 50)
    while its body deletes the key it visits.  ECMAScript fixes that a
    key deleted before its turn is not visited and that no key is
    visited twice; string keys come in insertion order.  [for_in] is
    that enumeration: each round takes the first key of the object as
    it is now that has not been visited yet.  It runs on fuel, one unit
    per round; [None] means the fuel ran out.

    The handlers are modelled with [for_each] over the keys the store
    had when the loop started.  [for_in_for_each] proves the two agree,
    and that one unit of fuel per key plus one is enough, for every
    body that deletes at most the key it visits. *)

From S2P Require Import Prelude JsObject.

Section ForIn.
Context {St : Type} (keys_of : St -> list string) (body : string -> St -> outcome St).

(** One round per visited key; the loop ends when every present key
    has been visited. *)
Fixpoint for_in (fuel : nat) (visited : list string) (s : St) : option (outcome St) :=
  match fuel with
  | O => None
  | S fuel' =>
      match filter (fun k => k ∉ visited) (keys_of s) with
      | [] => Some (Normal s)
      | k :: _ =>
          match body k s with
          | Normal s' => for_in fuel' (visited ++ [k]) s'
          | Thrown e s' => Some (Thrown e s')
          end
      end
  end.

(** What the bodies of lines 50-54 and 132-143 do to the keys: a
    normal run keeps them or deletes the visited one. *)
Definition deletes_at_most_visited : Prop :=
  forall k s s', body k s = Normal s' ->
    keys_of s' = keys_of s \/ keys_of s' = filter (fun j => j <> k) (keys_of s).

(** ** Lemmas *)

Lemma filter_none {A : Type} (P : A -> Prop) `{!forall x, Decision (P x)} (l : list A) :
  Forall (fun x => ~ P x) l -> filter P l = [].
Proof. induction 1; [done|]. by rewrite filter_cons_False. Qed.

(** The keys still to visit: the present ones outside the visited
    prefix [P] of the initial keys [P ++ R] are exactly [R]. *)
Lemma for_in_pending (P R : list string) (Q : string -> Prop)
    `{!forall x, Decision (Q x)} :
  NoDup (P ++ R) -> Forall Q R ->
  filter (fun k => k ∉ P) (filter Q (P ++ R)) = R.
Proof.
  intros Hnd HQ. apply NoDup_app in Hnd as (_ & Hdisj & _).
  rewrite filter_app, (filter_all Q R HQ), filter_app.
  rewrite (filter_none (fun k => k ∉ P) (filter Q P)), (filter_all (fun k => k ∉ P) R); [done| |].
  - apply Forall_forall. intros x Hx Hp. exact (Hdisj x Hp Hx).
  - apply Forall_forall. intros x Hx. apply list_elem_of_filter in Hx as [_ Hx]. auto.
Qed.

(** The loop invariant: the object's keys are the initial keys filtered
    by what is still present, and everything not yet visited is. *)
Lemma for_in_from (Hb : deletes_at_most_visited) (R : list string) :
  forall fuel (P : list string) (Q : string -> Prop) `{!forall x, Decision (Q x)} s,
    NoDup (P ++ R) -> Forall Q R -> keys_of s = filter Q (P ++ R) ->
    (length R < fuel)%nat ->
    for_in fuel P s = Some (for_each body R s).
Proof.
  induction R as [|k R IH]; intros [|fuel] P Q HQd s Hnd HQ Hk Hf; simpl in Hf; try lia; simpl.
  - rewrite Hk, for_in_pending; done.
  - rewrite Hk, for_in_pending by done.
    destruct (body k s) as [s'|e s'] eqn:Hbody; simpl; [|done].
    assert (Hnd' : NoDup ((P ++ [k]) ++ R)) by by rewrite <- app_assoc.
    assert (Hk' : k ∉ R) by (apply NoDup_app in Hnd as (_ & _ & Hnd); by inversion Hnd).
    apply Forall_cons in HQ as [_ HQ].
    destruct (Hb k s s' Hbody) as [Hs' | Hs'].
    + apply (IH fuel (P ++ [k]) Q _); [done|done| |lia]. by rewrite Hs', Hk, <- app_assoc.
    + apply (IH fuel (P ++ [k]) (fun j => Q j /\ j <> k) _); [done| | |lia].
      * apply Forall_forall. intros j Hj. split; [by eapply Forall_forall|set_solver].
      * rewrite Hs', Hk, list_filter_filter, <- app_assoc. apply list_filter_iff. naive_solver.
Qed.

(** ** Properties *)

(** The JS enumeration of an object whose loop body deletes at
    most the key it visits terminates with [length keys + 1] units of
    fuel, and runs the body on exactly the keys the object had when the
    loop started, in their order: it equals [for_each] over them. *)
Theorem for_in_for_each s :
  deletes_at_most_visited -> NoDup (keys_of s) ->
  for_in (S (length (keys_of s))) [] s = Some (for_each body (keys_of s) s).
Proof.
  intros Hb Hnd. apply (for_in_from Hb (keys_of s) _ [] (fun _ => True) _); [done| | |lia].
  - by apply Forall_true.
  - simpl. symmetry. by apply filter_all, Forall_true.
Qed.

End ForIn.

