(* ===== verification/JsNumber.v ===== *)
(** * Numbers written to and read from DOM attributes (lines 75, 83-84, 91-92)

    The score reaches the DOM as text: the template literal
    [`${backEndPlayer.score}`] (line 75) and [setAttribute('data-score',
    backEndPlayer.score)] (line 84) both apply [ToString]; the sort
    reads it back with [Number(a.getAttribute('data-score'))] (lines
    91-92).  Scores are integers, so [js_String] is the decimal literal
    of an integer, with a leading ["-"] when negative (Stdlib's
    [DecimalString]).

    [js_Number] is [Number] on the strings made of an optional ["-"]
    and decimal digits, and on the empty string (which [Number] reads as
    [0]).  Every other string gives [None]: [NaN], or a literal outside
    that fragment (a fraction, an exponent, surrounding blanks, a hex
    literal).  The scoreboard's type invariant shows that only strings
    [js_String n] ever reach [Number], where the fragment is exact
    ([js_Number_String_eq]). *)

From S2P Require Import Prelude.
From Stdlib Require Import DecimalString DecimalZ.

Module JsNumber.

(** [ToString(n)] for an integer [n]. *)
Definition js_String (n : Z) : string := NilZero.string_of_int (Z.to_int n).

(** [Number(s)] on the integer literals. *)
Definition js_Number (s : string) : option Z :=
  match s with
  | EmptyString => Some 0%Z
  | _ => Z.of_int <$> NilZero.int_of_string s
  end.

(** The attribute holds the decimal literal of some integer. *)
Definition is_int_literal (s : string) : Prop := exists n, s = js_String n.

(** ** Lemmas *)

Lemma to_int_not_nil n : Z.to_int n <> Decimal.Pos Decimal.Nil /\ Z.to_int n <> Decimal.Neg Decimal.Nil.
Proof.
  assert (H0 : n <> 0%Z -> Z.of_int (Z.to_int n) <> 0%Z) by (rewrite DecimalZ.of_to; done).
  destruct (Z.eq_dec n 0) as [->|Hn]; [split; discriminate|].
  split; intros He; apply (H0 Hn); rewrite He; reflexivity.
Qed.

Lemma int_of_string_String n : NilZero.int_of_string (js_String n) = Some (Z.to_int n).
Proof. destruct (to_int_not_nil n). by apply NilZero.isi. Qed.

Lemma js_Number_String_eq n : js_Number (js_String n) = Some n.
Proof.
  pose proof (int_of_string_String n) as H. unfold js_Number.
  destruct (js_String n) eqn:E; [discriminate|].
  rewrite H. simpl. by rewrite DecimalZ.of_to.
Qed.

(** ** Properties *)

(** Reading back with [Number] the attribute written with
    [ToString] gives the integer written, for every integer, and two
    different scores never print to the same attribute: the scores the
    sort compares are the scores the server sent. *)
Theorem js_String_roundtrip n m :
  js_Number (js_String n) = Some n /\ (js_String n = js_String m -> n = m).
Proof.
  split; [apply js_Number_String_eq|]. intros Heq.
  pose proof (js_Number_String_eq n) as Hn. rewrite Heq, js_Number_String_eq in Hn. congruence.
Qed.

End JsNumber.
