(* ===== verification/Entities.v ===== *)
(** * The data the client keeps and receives

    - [Player.t], [Projectile.t]: the objects built by [new Player(...)]
      and [new Projectile(...)] (frontend.js lines 36-42 and 64-70).  The
      two classes live outside [src/] (in [public/js/classes/]); their
      fields are the ones the constructor calls pass and the ones the
      handlers later read and assign ([target], line 107).
    - [BackEndPlayer.t], [BackEndProjectile.t]: the entries of the
      [updatePlayers] / [updateProjectiles] payloads, with the fields the
      handlers read.
    - [input]: an entry of [playerInputs] (lines 203-221).
    - [Drawable]: the interface of the rendering collaborator, the
      [draw()] method both classes implement.

    Coordinates are JS numbers; they are modelled as rationals [Q]
    (floating-point rounding is not modelled).  Sequence numbers, scores
    and the displacement constant are integers and are modelled as [Z]. *)

From S2P Require Import Prelude JsObject.

Local Open Scope Q_scope.

Module Player.
Record t : Type := mk {
  x : Q;
  y : Q;
  radius : Q;
  color : string;
  username : string;
  (** [undefined] until the first snapshot after creation *)
  target : option (Q * Q)
}.

Definition with_target (tg : option (Q * Q)) (p : t) : t :=
  mk (x p) (y p) (radius p) (color p) (username p) tg.

Definition with_pos (nx ny : Q) (p : t) : t :=
  mk nx ny (radius p) (color p) (username p) (target p).
End Player.

Module Projectile.
Record t : Type := mk {
  x : Q;
  y : Q;
  radius : Q;
  (** [frontEndPlayers[playerId]?.color]: [undefined] when the owner
      is not known locally *)
  color : option string;
  (** the payload's [velocity]: [undefined] when the entry lacks it *)
  velocity : option (Q * Q)
}.

Definition with_pos (nx ny : Q) (p : t) : t :=
  mk nx ny (radius p) (color p) (velocity p).
End Projectile.

Module BackEndPlayer.
Record t : Type := mk {
  x : Q;
  y : Q;
  color : string;
  username : string;
  score : Z;
  (** the last input sequence number the server applied *)
  sequenceNumber : Z
}.
End BackEndPlayer.

Module BackEndProjectile.
Record t : Type := mk {
  x : Q;
  y : Q;
  playerId : string;
  velocity : Q * Q
}.
End BackEndProjectile.

(** [{ sequenceNumber, dx, dy }] pushed on [playerInputs]. *)
Record input : Type := mk_input {
  sequenceNumber : Z;
  dx : Z;
  dy : Z
}.

(** Lines 64-70: [new Player({x, y, radius: 10, color, username})]. *)
Definition new_player (bp : BackEndPlayer.t) : Player.t :=
  Player.mk (BackEndPlayer.x bp) (BackEndPlayer.y bp) 10
    (BackEndPlayer.color bp) (BackEndPlayer.username bp) None.

(** Lines 36-42: [new Projectile({x, y, radius: 5, color, velocity})],
    the color read through optional chaining from the owner. *)
Definition new_projectile (players : jsobj Player.t) (bj : BackEndProjectile.t)
    : Projectile.t :=
  Projectile.mk (BackEndProjectile.x bj) (BackEndProjectile.y bj) 5
    (Player.color <$> js_get (BackEndProjectile.playerId bj) players)
    (Some (BackEndProjectile.velocity bj)).

(** The rendering collaborator: [draw()] reads a position, a radius
    and a color (undefined for an orphan projectile). *)
Class Drawable (E : Type) := {
  draw_pos : E -> Q * Q;
  draw_radius : E -> Q;
  draw_color : E -> option string
}.

#[export] Instance player_drawable : Drawable Player.t := {
  draw_pos p := (Player.x p, Player.y p);
  draw_radius := Player.radius;
  draw_color p := Some (Player.color p)
}.

#[export] Instance projectile_drawable : Drawable Projectile.t := {
  draw_pos p := (Projectile.x p, Projectile.y p);
  draw_radius := Projectile.radius;
  draw_color := Projectile.color
}.
