(* ===== verification/Reconcile.v ===== *)
(** * Prediction and reconciliation of the local player (lines 107-127)

    When a snapshot mentions the local player ([id === socket.id]) the
    handler sets the player's [target] to the authoritative position,
    finds with [findIndex] the pending input whose sequence number the
    server echoes, discards that input and everything before it with
    [splice(0, i + 1)], and replays the remaining inputs onto the
    target.  [reconcile] is that code; [trim_acknowledged] is the
    [findIndex]/[splice] part and [replay] the [forEach] part.

    The abstract specification of trimming is [pending_after]: keep the
    inputs whose number is above the acknowledged one.  On a log of
    strictly increasing numbers that contains the acknowledged number,
    the code implements it exactly; when the number is absent the code
    keeps the whole log. *)

From S2P Require Import Prelude JsObject Entities.

Module Prediction.

(** [Array.prototype.findIndex], scanning from index [k]. *)
Fixpoint find_index_from {A : Type} (k : Z) (p : A -> bool) (l : list A) : Z :=
  match l with
  | [] => (-1)%Z
  | x :: l' => if p x then k else find_index_from (k + 1)%Z p l'
  end.

Definition findIndex {A : Type} (p : A -> bool) (l : list A) : Z :=
  find_index_from 0 p l.

(** [arr.splice(0, n)]: the deletion count is clamped to [0, length]. *)
Definition splice_front {A : Type} (n : Z) (l : list A) : list A :=
  drop (Z.to_nat n) l.

(** [backEndPlayer.sequenceNumber === input.sequenceNumber] *)
Definition acknowledges (ack : Z) (i : input) : bool :=
  Z.eqb ack (sequenceNumber i).

(** Lines 114-120. *)
Definition trim_acknowledged (ack : Z) (playerInputs : list input) : list input :=
  let lastBackendInputIndex := findIndex (acknowledges ack) playerInputs in
  if Z.gtb lastBackendInputIndex (-1)
  then splice_front (lastBackendInputIndex + 1) playerInputs
  else playerInputs.

(** One iteration of lines 123-126. *)
Definition apply_input (tg : Q * Q) (i : input) : Q * Q :=
  (tg.1 + inject_Z (dx i), tg.2 + inject_Z (dy i))%Q.

Definition replay (playerInputs : list input) (tg : Q * Q) : Q * Q :=
  fold_left apply_input playerInputs tg.

(** Lines 107-127 for the local player: the new pending log and the
    new target, from the echoed number and authoritative position. *)
Definition reconcile (ack : Z) (auth : Q * Q) (playerInputs : list input)
    : list input * (Q * Q) :=
  let rest := trim_acknowledged ack playerInputs in
  (rest, replay rest auth).

(** The log invariant kept by the input sequencer: sequence numbers
    strictly increase along the log. *)
Definition log_sorted (l : list input) : Prop :=
  StronglySorted Z.lt (map sequenceNumber l).

(** Reference trimming: the inputs the server has not applied yet. *)
Definition pending_after (ack : Z) (l : list input) : list input :=
  filter (fun i => ack < sequenceNumber i)%Z l.

Definition sum_dx (l : list input) : Z := foldr (fun i s => dx i + s)%Z 0%Z l.
Definition sum_dy (l : list input) : Z := foldr (fun i s => dy i + s)%Z 0%Z l.

(** The concrete log of the spec's scenario A. *)
Definition scenarioA_log : list input :=
  [mk_input 1 0 (-5); mk_input 2 0 (-5); mk_input 3 5 0].

(** ** [findIndex] *)

Lemma drop_past_elem {A : Type} (pre : list A) x post :
  drop (S (length pre)) (pre ++ x :: post) = post.
Proof. by induction pre. Qed.

Lemma find_index_from_cases {A : Type} (p : A -> bool) l k :
  (find_index_from k p l = (-1)%Z /\ Forall (fun x => p x = false) l) \/
  (exists pre x post, l = pre ++ x :: post /\ Forall (fun x => p x = false) pre /\
     p x = true /\ find_index_from k p l = (k + Z.of_nat (length pre))%Z).
Proof.
  revert k; induction l as [|x l IH]; intros k; simpl; [by left|].
  destruct (p x) eqn:Hp.
  - right. exists [], x, l. split_and!; auto. simpl. lia.
  - destruct (IH (k + 1)%Z) as [[-> Hf] | (pre & y & post & -> & Hf & Hy & ->)].
    + left. auto.
    + right. exists (x :: pre), y, post. simpl. split_and!; auto. lia.
Qed.

Lemma findIndex_cases {A : Type} (p : A -> bool) l :
  (findIndex p l = (-1)%Z /\ Forall (fun x => p x = false) l) \/
  (exists pre x post, l = pre ++ x :: post /\ Forall (fun x => p x = false) pre /\
     p x = true /\ findIndex p l = Z.of_nat (length pre)).
Proof. apply (find_index_from_cases p l 0). Qed.

(** [trim_acknowledged] either finds a first acknowledged input and
    returns what follows it, or finds none and keeps the log. *)
Lemma trim_acknowledged_cases ack l :
  (Forall (fun i => sequenceNumber i <> ack) l /\ trim_acknowledged ack l = l) \/
  (exists pre x, l = pre ++ x :: trim_acknowledged ack l /\ sequenceNumber x = ack /\
     Forall (fun i => sequenceNumber i <> ack) pre).
Proof.
  unfold trim_acknowledged.
  destruct (findIndex_cases (acknowledges ack) l)
    as [[-> Hf] | (pre & x & post & -> & Hf & Hx & ->)].
  - left. simpl. split; [|done].
    eapply Forall_impl; [exact Hf|]. intros i Hi. unfold acknowledges in Hi.
    apply Z.eqb_neq in Hi. auto.
  - right. exists pre, x. unfold acknowledges in Hx. apply Z.eqb_eq in Hx.
    rewrite (proj2 (Z.gtb_lt _ _)) by lia.
    unfold splice_front. rewrite Z2Nat.inj_add, Nat2Z.id by lia. simpl.
    replace (length pre + Z.to_nat 1)%nat with (S (length pre)) by lia.
    rewrite drop_past_elem. split_and!; auto.
    eapply Forall_impl; [exact Hf|]. intros i Hi. unfold acknowledges in Hi.
    apply Z.eqb_neq in Hi. auto.
Qed.

(** ** Shared lemmas on the log *)

Lemma log_sorted_mid pre x post :
  log_sorted (pre ++ x :: post) ->
  Forall (fun i => sequenceNumber i < sequenceNumber x)%Z pre /\
  Forall (fun i => sequenceNumber x < sequenceNumber i)%Z post.
Proof.
  unfold log_sorted. rewrite map_app. simpl. intros H.
  apply StronglySorted_mid in H as [H1 H2]. rewrite Forall_map in H1, H2. auto.
Qed.

Lemma log_sorted_suffix pre post : log_sorted (pre ++ post) -> log_sorted post.
Proof. unfold log_sorted. rewrite map_app. apply StronglySorted_app_inv_r. Qed.

Lemma pending_after_none ack l :
  Forall (fun i => sequenceNumber i <= ack)%Z l -> pending_after ack l = [].
Proof.
  unfold pending_after. induction 1 as [|i l Hi _ IH]; [done|].
  rewrite filter_cons_False; [done|lia].
Qed.

Lemma pending_after_all ack l :
  Forall (fun i => ack < sequenceNumber i)%Z l -> pending_after ack l = l.
Proof.
  unfold pending_after. induction 1 as [|i l Hi _ IH]; [done|].
  rewrite filter_cons_True; [by rewrite IH|done].
Qed.

Lemma trim_acknowledged_suffix ack l :
  exists pre, l = pre ++ trim_acknowledged ack l.
Proof.
  destruct (trim_acknowledged_cases ack l) as [[_ ->] | (pre & x & Hl & _)].
  - by exists [].
  - exists (pre ++ [x]). rewrite <- app_assoc. exact Hl.
Qed.

Lemma replay_cons i l tg : replay (i :: l) tg = replay l (apply_input tg i).
Proof. reflexivity. Qed.

(** ** Properties *)

(** C1: on a log of strictly increasing sequence numbers that contains
    the acknowledged number, [findIndex]/[splice] removes exactly the
    inputs numbered up to and including it and keeps the others in
    their original order: it computes [pending_after]. *)
Theorem trim_acknowledged_refines ack l :
  log_sorted l -> Exists (fun i => sequenceNumber i = ack) l ->
  trim_acknowledged ack l = pending_after ack l.
Proof.
  intros Hs Hex.
  destruct (trim_acknowledged_cases ack l) as [[Hf _] | (pre & x & Hl & Hx & _)].
  - exfalso. exact (proj1 (Forall_Exists_neg _ _) Hf Hex).
  - set (r := trim_acknowledged ack l) in *. clearbody r. subst l.
    apply log_sorted_mid in Hs as [Hpre Hpost].
    unfold pending_after. rewrite filter_app, filter_cons_False by lia.
    fold (pending_after ack pre). fold (pending_after ack r).
    rewrite pending_after_none, pending_after_all; [done| |].
    + eapply Forall_impl; [exact Hpost|]. simpl. lia.
    + eapply Forall_impl; [exact Hpre|]. simpl. lia.
Qed.

(** C2: when no pending input carries the echoed number, the code
    neither trims nor reports an error: the whole log stays pending
    and is replayed onto the authoritative position. *)
Theorem reconcile_unacknowledged ack auth l :
  Forall (fun i => sequenceNumber i <> ack) l ->
  reconcile ack auth l = (l, replay l auth).
Proof.
  intros Hf. unfold reconcile.
  destruct (trim_acknowledged_cases ack l) as [[_ ->] | (pre & x & Hl & Hx & _)]; [done|].
  exfalso. rewrite Hl in Hf. apply Forall_app in Hf as [_ Hf]. by inversion Hf.
Qed.

(** C3: replaying pending inputs adds their displacements, in sum,
    to the target. *)
Theorem replay_sum l tg :
  ((replay l tg).1 == tg.1 + inject_Z (sum_dx l))%Q /\
  ((replay l tg).2 == tg.2 + inject_Z (sum_dy l))%Q.
Proof.
  revert tg; induction l as [|i l IH]; intros tg; simpl.
  - split; ring.
  - destruct (IH (apply_input tg i)) as [H1 H2]. unfold replay in *. simpl.
    rewrite H1, H2. simpl. rewrite !inject_Z_plus. split; ring.
Qed.

(** The trimmed log keeps the invariant. *)
Lemma reconcile_sorted ack auth l :
  log_sorted l -> log_sorted (reconcile ack auth l).1.
Proof.
  simpl. destruct (trim_acknowledged_suffix ack l) as [pre Hl].
  rewrite Hl at 1. apply log_sorted_suffix.
Qed.

Lemma scenarioA_sorted : log_sorted scenarioA_log.
Proof. unfold log_sorted. simpl. repeat constructor. Qed.

Lemma trim_acknowledged_refines_witness :
  log_sorted scenarioA_log /\ Exists (fun i => sequenceNumber i = 2%Z) scenarioA_log /\
  trim_acknowledged 2 scenarioA_log = pending_after 2 scenarioA_log.
Proof.
  split; [apply scenarioA_sorted|]. split; [right; left; reflexivity|].
  apply trim_acknowledged_refines; [apply scenarioA_sorted | right; left; reflexivity].
Defined.

Lemma reconcile_unacknowledged_witness :
  Forall (fun i => sequenceNumber i <> 7%Z) scenarioA_log /\
  reconcile 7 (0, 0)%Q scenarioA_log = (scenarioA_log, replay scenarioA_log (0, 0)%Q).
Proof.
  split; [repeat constructor; simpl; lia|].
  apply reconcile_unacknowledged. repeat constructor; simpl; lia.
Defined.
End Prediction.
