(* ===== verification/InputSequencer.v ===== *)
(** * The input sequencer (frontend.js lines 174-270)

    [keys] holds one [pressed] flag per movement key; the keyboard
    handlers set and clear them, but only while the local player exists
    ([if (!frontEndPlayers[socket.id]) return]).  Every 15 ms the
    interval callback visits W, A, S, D in that order and, for each key
    held, increments the global [sequenceNumber], pushes
    [{sequenceNumber, dx, dy}] on [playerInputs] and emits a [keydown]
    message carrying the key code and the number.

    [tick] is the interval callback, [sample_key] one of its four
    [if] blocks; [on_keydown]/[on_keyup] are the two listeners.  The
    state threaded through them is [sequencer]; the outbound socket is
    the list [outbox] of emitted messages, oldest first. *)

From S2P Require Import Prelude JsObject Entities Reconcile.
Import Prediction.

Module Inputs.

(** [socket.emit(...)]: the two messages the client sends. *)
Inductive message : Type :=
| Keydown (keycode : string) (sequenceNumber : Z)
| InitGame (width height : Z) (devicePixelRatio : Q) (username : string).

(** [keys.w.pressed], [keys.a.pressed], [keys.s.pressed], [keys.d.pressed] *)
Record key_state : Type := mk_keys {
  w : bool;
  a : bool;
  s : bool;
  d : bool
}.

Definition no_keys : key_state := mk_keys false false false false.

(** The state the sequencer owns: the key flags, [playerInputs], the
    global counter [let sequenceNumber] and the emitted messages. *)
Record sequencer : Type := mk_seq {
  keys : key_state;
  playerInputs : list input;
  seq_counter : Z;
  outbox : list message
}.

(** [const SPEED = 5] *)
Definition SPEED : Z := 5.

(** One [if (keys.k.pressed) { sequenceNumber++; push; emit }] block. *)
Definition sample_key (pressed : bool) (code : string) (ddx ddy : Z) (st : sequencer)
    : sequencer :=
  if pressed then
    let n := (seq_counter st + 1)%Z in
    mk_seq (keys st) (playerInputs st ++ [mk_input n ddx ddy]) n
      (outbox st ++ [Keydown code n])
  else st.

(** Lines 200-224: the body of the 15 ms interval. *)
Definition tick (st : sequencer) : sequencer :=
  let k := keys st in
  let st1 := sample_key (w k) "KeyW" 0 (- SPEED) st in
  let st2 := sample_key (a k) "KeyA" (- SPEED) 0 st1 in
  let st3 := sample_key (s k) "KeyS" 0 SPEED st2 in
  sample_key (d k) "KeyD" SPEED 0 st3.

(** The [switch (event.code)] of both listeners, storing [v]. *)
Definition set_key (code : string) (v : bool) (k : key_state) : key_state :=
  if String.eqb code "KeyW" then mk_keys v (a k) (s k) (d k)
  else if String.eqb code "KeyA" then mk_keys (w k) v (s k) (d k)
  else if String.eqb code "KeyS" then mk_keys (w k) (a k) v (d k)
  else if String.eqb code "KeyD" then mk_keys (w k) (a k) (s k) v
  else k.

(** Lines 227-247: ignored while the local player is absent. *)
Definition on_keydown (players : jsobj Player.t) (sid code : string) (k : key_state)
    : key_state :=
  if negb (js_has sid players) then k else set_key code true k.

(** Lines 250-270: the same guard, clearing the flag. *)
Definition on_keyup (players : jsobj Player.t) (sid code : string) (k : key_state)
    : key_state :=
  if negb (js_has sid players) then k else set_key code false k.

(** ** Specification vocabulary *)

(** The number of keys held. *)
Definition count_pressed (k : key_state) : nat :=
  (Nat.b2n (w k) + Nat.b2n (a k) + Nat.b2n (s k) + Nat.b2n (d k))%nat.

(** [n] consecutive numbers from [start]. *)
Fixpoint seq_range (start : Z) (n : nat) : list Z :=
  match n with
  | O => []
  | S n' => start :: seq_range (start + 1)%Z n'
  end.

(** The key whose displacement an input records. *)
Definition keycode_of (i : input) : string :=
  if Z.eqb (dy i) (- SPEED) then "KeyW"
  else if Z.eqb (dx i) (- SPEED) then "KeyA"
  else if Z.eqb (dy i) SPEED then "KeyS"
  else "KeyD".

(** The message the sequencer emits for a logged input. *)
Definition emitted_for (i : input) : message := Keydown (keycode_of i) (sequenceNumber i).

(** The sequencer invariant: the log is strictly increasing and no
    logged number exceeds the counter. *)
Definition seq_inv (st : sequencer) : Prop :=
  log_sorted (playerInputs st) /\
  Forall (fun i => sequenceNumber i <= seq_counter st)%Z (playerInputs st).

(** ** Lemmas *)

Lemma sample_key_keys p code ddx ddy st : keys (sample_key p code ddx ddy st) = keys st.
Proof. by destruct p. Qed.

Lemma tick_keys st : keys (tick st) = keys st.
Proof. unfold tick. by rewrite !sample_key_keys. Qed.

Lemma sample_key_inv p code ddx ddy st :
  seq_inv st -> seq_inv (sample_key p code ddx ddy st).
Proof.
  destruct p; [|done]. intros [Hs Hf]. split; simpl.
  - unfold log_sorted. rewrite map_app. simpl. apply StronglySorted_snoc; [done|].
    rewrite Forall_map. eapply Forall_impl; [exact Hf|]. simpl. lia.
  - apply Forall_app. split; [|constructor; simpl; [lia|constructor]].
    eapply Forall_impl; [exact Hf|]. simpl. lia.
Qed.

Lemma sum_dx_app l1 l2 : sum_dx (l1 ++ l2) = (sum_dx l1 + sum_dx l2)%Z.
Proof. induction l1; simpl; [done|]. unfold sum_dx in *. simpl. lia. Qed.

Lemma sum_dy_app l1 l2 : sum_dy (l1 ++ l2) = (sum_dy l1 + sum_dy l2)%Z.
Proof. induction l1; simpl; [done|]. unfold sum_dy in *. simpl. lia. Qed.

#[export] Hint Resolve sample_key_inv : client.

(** The tick keeps the invariant (shared by the client proofs). *)
Lemma tick_inv st : seq_inv st -> seq_inv (tick st).
Proof. intros H. unfold tick. auto 6 with client. Qed.

(** What one tick appends (shared by the bound proof). *)
Lemma tick_appends st :
  exists new,
    playerInputs (tick st) = playerInputs st ++ new /\
    map sequenceNumber new = seq_range (seq_counter st + 1) (count_pressed (keys st)) /\
    seq_counter (tick st) = (seq_counter st + Z.of_nat (count_pressed (keys st)))%Z /\
    outbox (tick st) = outbox st ++ map emitted_for new.
Proof.
  destruct st as [[kw ka ks kd] l c o].
  destruct kw, ka, ks, kd; unfold tick; simpl; eexists; split_and!;
    first [ unfold count_pressed; simpl; lia
          | rewrite <- ?app_assoc; simpl; first [reflexivity | symmetry; apply app_nil_r] ].
Qed.

(** ** Properties *)

(** C4: the tick preserves the log invariant: sequence numbers stay
    strictly increasing and bounded by the counter. *)
Theorem tick_preserves_inv st : seq_inv st -> seq_inv (tick st).
Proof. apply tick_inv. Qed.

(** C5: one tick appends one input per held key, numbered
    consecutively after the counter, advances the counter by the number
    of held keys, and emits exactly one [keydown] per appended input, in
    the same order, with the same number and the matching key code. *)
Theorem tick_log st :
  exists new,
    playerInputs (tick st) = playerInputs st ++ new /\
    map sequenceNumber new = seq_range (seq_counter st + 1) (count_pressed (keys st)) /\
    seq_counter (tick st) = (seq_counter st + Z.of_nat (count_pressed (keys st)))%Z /\
    outbox (tick st) = outbox st ++ map emitted_for new.
Proof. apply tick_appends. Qed.

(** C6: the displacement logged by one tick is the vector sum of the
    held keys' unit moves times [SPEED] (diagonals add per axis). *)
Theorem tick_displacement st :
  sum_dx (playerInputs (tick st)) =
    (sum_dx (playerInputs st) + SPEED * (Z.b2z (d (keys st)) - Z.b2z (a (keys st))))%Z /\
  sum_dy (playerInputs (tick st)) =
    (sum_dy (playerInputs st) + SPEED * (Z.b2z (s (keys st)) - Z.b2z (w (keys st))))%Z.
Proof.
  destruct st as [[kw ka ks kd] l c o].
  destruct kw, ka, ks, kd; unfold tick; simpl;
    rewrite ?sum_dx_app, ?sum_dy_app, <- ?app_assoc, ?sum_dx_app, ?sum_dy_app;
    unfold sum_dx, sum_dy; simpl; unfold SPEED; split; lia.
Qed.

(** C7: over [n] ticks the counter grows by at most four per tick, so
    it stays far below 2^53 (where JS numbers stop counting exactly)
    for any realistic session length. *)
Theorem ticks_counter_bound n st :
  (seq_counter st <= seq_counter (Nat.iter n tick st) <= seq_counter st + 4 * Z.of_nat n)%Z.
Proof.
  induction n as [|n IH]; simpl; [lia|].
  destruct (tick_appends (Nat.iter n tick st)) as (? & _ & _ & -> & _).
  assert (count_pressed (keys (Nat.iter n tick st)) <= 4)%nat.
  { destruct (keys _) as [[] [] [] []]; cbn; lia. }
  lia.
Qed.

Lemma tick_preserves_inv_witness :
  seq_inv (mk_seq (mk_keys true true false true) [mk_input 1 0 (-5)] 1 []) /\
  seq_inv (tick (mk_seq (mk_keys true true false true) [mk_input 1 0 (-5)] 1 [])).
Proof.
  assert (H : seq_inv (mk_seq (mk_keys true true false true) [mk_input 1 0 (-5)] 1 [])).
  { split; simpl; repeat constructor; simpl; lia. }
  split; [exact H|]. apply tick_preserves_inv. exact H.
Defined.

End Inputs.
