(* ===== verification/Scoreboard.v ===== *)
(** * The scoreboard rows under [#playerLabels] (lines 72-105, 134-135)

    The [updatePlayers] handler keeps one [<div data-id data-score>]
    per player under [#playerLabels]:
    - a new player's row is appended ([innerHTML += ...], line 73-75);
    - a known player's row is found with
      [querySelector('div[data-id="id"]')], its text and [data-score]
      are rewritten, and all rows are re-sorted by descending score with
      [Array.prototype.sort], then removed and re-appended in that order
      (lines 78-105);
    - a vanished player's row is found the same way and removed
      (lines 134-135).
    [querySelector] returns [null] when no row matches; the property
    access on [null] that follows throws.  The lookups here return
    [None] in that case and the handler turns it into a [TypeError].

    A row is modelled as the DOM holds it: its [data-id], its
    [data-score] attribute (a string, written with [ToString]) and its
    text [username: score].  The comparator reads the attribute back
    with [Number]; a [NaN] difference counts as [+0], as in
    [SortCompare].  [Array.prototype.sort] is stable (ES2019), so on
    rows whose [data-score] is an integer literal the comparator
    [scoreB - scoreA] gives the stable descending sort, which
    [sort_rows] computes by insertion.  [rows_typed] is that condition;
    the handlers keep it (see [Players]). *)

From S2P Require Import Prelude JsObject JsNumber Entities.
Import JsNumber.

Module Labels.

Record row : Type := mk_row {
  row_id : string;
  row_data_score : string;
  row_text : string
}.

(** The row the markup of line 75 parses to, and the contents lines
    81-84 give a row: [data-score] and text from the snapshot entry. *)
Definition row_of (id : string) (bp : BackEndPlayer.t) : row :=
  mk_row id (js_String (BackEndPlayer.score bp))
    (BackEndPlayer.username bp +:+ ": " +:+ js_String (BackEndPlayer.score bp)).

(** Lines 73-75: the row appended for a new player. *)
Definition add_row (id : string) (bp : BackEndPlayer.t) (rows : list row) : list row :=
  rows ++ [row_of id bp].

(** Lines 78-84: rewrite the text and [data-score] of the first row
    with that id; [None] when there is none (the access throws). *)
Fixpoint update_row (id : string) (bp : BackEndPlayer.t) (rows : list row)
    : option (list row) :=
  match rows with
  | [] => None
  | r :: rows' =>
      if decide (row_id r = id) then Some (row_of id bp :: rows')
      else (fun t => r :: t) <$> update_row id bp rows'
  end.

(** Lines 134-135: remove the first row with that id; [None] when
    there is none ([divToDelete.parentNode] throws). *)
Fixpoint remove_row (id : string) (rows : list row) : option (list row) :=
  match rows with
  | [] => None
  | r :: rows' =>
      if decide (row_id r = id) then Some rows'
      else (fun t => r :: t) <$> remove_row id rows'
  end.

(** Lines 91-92: [Number(a.getAttribute('data-score'))]. *)
Definition row_score (r : row) : option Z := js_Number (row_data_score r).

(** Lines 90-95: the comparator [(a, b) => scoreB - scoreA]; a [NaN]
    result is taken as [+0]. *)
Definition compare_rows (a b : row) : Z :=
  match row_score a, row_score b with
  | Some scoreA, Some scoreB => (scoreB - scoreA)%Z
  | _, _ => 0%Z
  end.

(** Insert [r] before the first row [y] it does not sort after
    ([compare_rows r y <= 0]): the rows that came after [r] in the input
    stay after it, which makes the sort stable. *)
Fixpoint insert_row (r : row) (rows : list row) : list row :=
  match rows with
  | [] => [r]
  | y :: rows' => if Z.ltb 0 (compare_rows r y) then y :: insert_row r rows'
                  else r :: y :: rows'
  end.

(** Lines 86-95: [childDivs.sort((a, b) => scoreB - scoreA)]. *)
Fixpoint sort_rows (rows : list row) : list row :=
  match rows with
  | [] => []
  | r :: rows' => insert_row r (sort_rows rows')
  end.

(** Lines 78-105: update the row, then sort and re-append all rows. *)
Definition refresh_row (id : string) (bp : BackEndPlayer.t) (rows : list row)
    : option (list row) :=
  sort_rows <$> update_row id bp rows.

(** The type invariant of the rows: every [data-score] is the decimal
    literal of an integer. *)
Definition row_typed (r : row) : Prop := is_int_literal (row_data_score r).
Definition rows_typed (rows : list row) : Prop := Forall row_typed rows.

(** The score a typed row holds. *)
Definition score_of (r : row) : Z := default 0%Z (row_score r).

(** Rows in descending score order. *)
Definition rows_sorted (rows : list row) : Prop :=
  Sorted (fun r1 r2 => score_of r2 <= score_of r1)%Z rows.

(** The rows holding one given score, in document order. *)
Definition rows_with_score (sc : Z) (rows : list row) : list row :=
  filter (fun r => row_score r = Some sc) rows.

(** ** Lemmas *)

Lemma row_of_typed id bp : row_typed (row_of id bp).
Proof. by eexists. Qed.

Lemma score_of_row_of id bp : score_of (row_of id bp) = BackEndPlayer.score bp.
Proof. unfold score_of, row_score, row_of. simpl. by rewrite js_Number_String_eq. Qed.

Lemma row_score_typed r : row_typed r -> row_score r = Some (score_of r).
Proof.
  intros [n Hn]. unfold score_of, row_score. rewrite Hn, js_Number_String_eq. done.
Qed.

Lemma compare_rows_typed a b :
  row_typed a -> row_typed b -> compare_rows a b = (score_of b - score_of a)%Z.
Proof. intros Ha Hb. unfold compare_rows. by rewrite !row_score_typed. Qed.

Lemma insert_row_perm r rows : insert_row r rows ≡ₚ r :: rows.
Proof.
  induction rows as [|y rows IH]; simpl; [done|].
  destruct (Z.ltb _ _); [|done]. rewrite IH. constructor.
Qed.

Lemma sort_rows_perm rows : sort_rows rows ≡ₚ rows.
Proof.
  induction rows as [|r rows IH]; simpl; [done|].
  by rewrite insert_row_perm, IH.
Qed.

Lemma sort_rows_typed rows : rows_typed rows -> rows_typed (sort_rows rows).
Proof. unfold rows_typed. by rewrite sort_rows_perm. Qed.

#[export] Hint Resolve row_of_typed sort_rows_typed : client.

Lemma insert_row_sorted r rows :
  row_typed r -> rows_typed rows -> rows_sorted rows -> rows_sorted (insert_row r rows).
Proof.
  unfold rows_sorted. intros Hr Ht Hs. revert Ht.
  induction Hs as [|y rows Hs IH Hhd]; intros Ht; simpl.
  - repeat constructor.
  - apply Forall_cons in Ht as [Hy Ht].
    rewrite compare_rows_typed by done. destruct (Z.ltb_spec 0 (score_of y - score_of r)).
    + constructor; [exact (IH Ht)|]. destruct rows as [|z rows]; simpl.
      * constructor. lia.
      * apply Forall_cons in Ht as [Hz _]. inversion Hhd; subst.
        rewrite compare_rows_typed by done. destruct (Z.ltb _ _); constructor; simpl; lia.
    + repeat constructor; auto; lia.
Qed.

(** Rows with score [sc] in an insertion: [r] goes in front of the
    ones already there. *)
Lemma insert_row_with_score sc r rows :
  row_typed r -> rows_typed rows -> rows_sorted rows ->
  rows_with_score sc (insert_row r rows) = rows_with_score sc (r :: rows).
Proof.
  unfold rows_sorted, rows_with_score. intros Hr Ht Hs. revert Ht.
  induction Hs as [|y rows Hs IH Hhd]; intros Ht; simpl; [done|].
  apply Forall_cons in Ht as [Hy Ht].
  rewrite compare_rows_typed by done.
  destruct (Z.ltb_spec 0 (score_of y - score_of r)); [|done].
  rewrite !filter_cons, IH, !filter_cons by done.
  rewrite (row_score_typed r), (row_score_typed y) by done.
  repeat case_decide; simplify_eq; try lia; done.
Qed.

Lemma sort_rows_sorted rows : rows_typed rows -> rows_sorted (sort_rows rows).
Proof.
  induction 1 as [|r rows Hr Ht IH]; simpl; [constructor|].
  apply insert_row_sorted; auto with client.
Qed.

Lemma update_row_ids id bp rows rows' :
  update_row id bp rows = Some rows' -> map row_id rows' = map row_id rows.
Proof.
  revert rows'; induction rows as [|r rows IH]; intros rows' H; simpl in *; [done|].
  case_decide; simplify_eq; [done|].
  destruct (update_row id bp rows) eqn:E; simplify_eq/=. by rewrite (IH _ eq_refl).
Qed.

Lemma update_row_Some id bp rows : id ∈ map row_id rows -> is_Some (update_row id bp rows).
Proof.
  induction rows as [|r rows IH]; simpl; [set_solver|].
  rewrite elem_of_cons. intros Hin. case_decide; [by eexists|].
  destruct IH as [t ->]; [naive_solver|]. by eexists.
Qed.

Lemma update_row_typed id bp rows rows' :
  rows_typed rows -> update_row id bp rows = Some rows' -> rows_typed rows'.
Proof.
  intros Ht. revert rows'. induction Ht as [|r rows Hr Ht IH]; intros rows' H; simpl in *; [done|].
  case_decide; simplify_eq; [by constructor; auto with client|].
  destruct (update_row id bp rows) eqn:E; simplify_eq/=. constructor; [done|by apply IH].
Qed.

Lemma remove_row_ids id rows rows' :
  remove_row id rows = Some rows' ->
  exists pre post, map row_id rows = pre ++ id :: post /\ map row_id rows' = pre ++ post /\
    id ∉ pre.
Proof.
  revert rows'; induction rows as [|r rows IH]; intros rows' H; simpl in *; [done|].
  case_decide; simplify_eq.
  - exists [], (map row_id rows'). split_and!; [by subst| done | set_solver].
  - destruct (remove_row id rows) eqn:E; simplify_eq/=.
    destruct (IH _ eq_refl) as (pre & post & H1 & H2 & H3).
    exists (row_id r :: pre), post. rewrite H1, H2. split_and!; [done|done|set_solver].
Qed.

Lemma remove_row_Some id rows : id ∈ map row_id rows -> is_Some (remove_row id rows).
Proof.
  induction rows as [|r rows IH]; simpl; [set_solver|].
  rewrite elem_of_cons. intros Hin. case_decide; [by eexists|].
  destruct IH as [t ->]; [naive_solver|]. by eexists.
Qed.

Lemma remove_row_typed id rows rows' :
  rows_typed rows -> remove_row id rows = Some rows' -> rows_typed rows'.
Proof.
  intros Ht. revert rows'. induction Ht as [|r rows Hr Ht IH]; intros rows' H; simpl in *; [done|].
  case_decide; simplify_eq; [done|].
  destruct (remove_row id rows) eqn:E; simplify_eq/=. constructor; [done|by apply IH].
Qed.

Lemma refresh_row_ids id bp rows rows' :
  refresh_row id bp rows = Some rows' -> map row_id rows' ≡ₚ map row_id rows.
Proof.
  unfold refresh_row. destruct (update_row id bp rows) as [t|] eqn:E; intros H; simplify_eq/=.
  rewrite sort_rows_perm. by rewrite (update_row_ids _ _ _ _ E).
Qed.

Lemma refresh_row_typed id bp rows rows' :
  rows_typed rows -> refresh_row id bp rows = Some rows' -> rows_typed rows' /\ rows_sorted rows'.
Proof.
  unfold refresh_row. intros Ht. destruct (update_row id bp rows) as [t|] eqn:E; intros H; simplify_eq/=.
  pose proof (update_row_typed _ _ _ _ Ht E). split; [auto with client|by apply sort_rows_sorted].
Qed.

(** ** Properties *)

(** C8: [sort_rows] is the stable descending sort that
    [Array.prototype.sort] computes with [scoreB - scoreA]: its result is
    in descending score order, a permutation of the rows, and rows of
    equal score keep their document order. *)
Theorem sort_rows_stable_desc rows :
  rows_typed rows ->
  rows_sorted (sort_rows rows) /\ sort_rows rows ≡ₚ rows /\
  forall sc, rows_with_score sc (sort_rows rows) = rows_with_score sc rows.
Proof.
  intros Ht. split_and!; [by apply sort_rows_sorted | apply sort_rows_perm|].
  intros sc. induction Ht as [|r rows Hr Ht IH]; simpl; [done|].
  rewrite insert_row_with_score by auto using sort_rows_typed, sort_rows_sorted.
  unfold rows_with_score in *. rewrite !filter_cons. by rewrite IH.
Qed.

Lemma sort_rows_stable_desc_witness :
  rows_typed [row_of "a" (BackEndPlayer.mk 0 0 "c" "a" 1 0); row_of "b" (BackEndPlayer.mk 0 0 "c" "b" 5 0);
              row_of "c" (BackEndPlayer.mk 0 0 "c" "c" 1 0)] /\
  map row_id (sort_rows [row_of "a" (BackEndPlayer.mk 0 0 "c" "a" 1 0);
                         row_of "b" (BackEndPlayer.mk 0 0 "c" "b" 5 0);
                         row_of "c" (BackEndPlayer.mk 0 0 "c" "c" 1 0)]) = ["b"; "a"; "c"] /\
  rows_sorted (sort_rows [row_of "a" (BackEndPlayer.mk 0 0 "c" "a" 1 0);
                          row_of "b" (BackEndPlayer.mk 0 0 "c" "b" 5 0);
                          row_of "c" (BackEndPlayer.mk 0 0 "c" "c" 1 0)]).
Proof.
  assert (Ht : rows_typed [row_of "a" (BackEndPlayer.mk 0 0 "c" "a" 1 0);
                           row_of "b" (BackEndPlayer.mk 0 0 "c" "b" 5 0);
                           row_of "c" (BackEndPlayer.mk 0 0 "c" "c" 1 0)]).
  { repeat constructor; apply row_of_typed. }
  split_and!; [exact Ht|vm_compute; reflexivity|]. apply (sort_rows_stable_desc _ Ht).
Defined.

End Labels.
