(* ===== verification/Markup.v ===== *)
(** * The scoreboard markup and [innerHTML +=] (lines 73-75)

    A new player's row is added by appending to
    [playerLabels.innerHTML] the template of line 75: a [div] with the
    attributes [data-id] (the id) and [data-score] (the score), both in
    double quotes, and the text [username: score].  Appending to
    [innerHTML] serializes the rows already there, appends the new
    markup, and parses the whole string again.  [label_markup] is the
    template.  The serializer and the parser are the browser's, outside
    src/, and are modelled from the HTML standard on the one fragment
    the scoreboard uses:
    - [rows_html] serializes each row as that [div].  Like the HTML
      serializer, it escapes the ampersand and the double quote in
      attribute values, and the ampersand and angle brackets in text.
    - [parse_rows] reads a sequence of such [div]s.  A text ends at the
      first [<] and a quoted attribute value at the next double quote.
      Character references are outside the fragment and make it fail.

    [append_label] is lines 73-75 on these.  The template does not
    escape the username, so the rows after the append are the model's
    [add_row] only for usernames without markup characters
    ([append_label_plain]).  A username holding markup adds rows of its
    own, with any [data-id] and score it likes ([append_label_forges]).
    [markup_free] and [snapshot_markup_free] name the ids and snapshots
    the handlers can write into markup and selectors verbatim: the
    domain on which the plain rows of [Scoreboard] are the DOM's. *)

From S2P Require Import Prelude JsObject JsNumber Entities Scoreboard.
From Stdlib Require Import Ascii DecimalString.
Import JsNumber Labels.

Module Markup.

Local Open Scope string_scope.

(** The double quote, built from its code. *)
Definition dq : Ascii.ascii := Ascii.ascii_of_nat 34.
Definition q : string := String dq EmptyString.

(** Line 75: the markup of a new player's row. *)
Definition label_markup (id : string) (bp : BackEndPlayer.t) : string :=
  "<div data-id=" +:+ q +:+ id +:+ q +:+ " data-score=" +:+ q +:+
  js_String (BackEndPlayer.score bp) +:+ q +:+ ">" +:+
  BackEndPlayer.username bp +:+ ": " +:+ js_String (BackEndPlayer.score bp) +:+ "</div>".

(** The HTML serializer's escaping: in an attribute value the
    ampersand and the double quote, in text the ampersand and the angle
    brackets. *)
Fixpoint escape (attr : bool) (s : string) : string :=
  match s with
  | EmptyString => EmptyString
  | String c s' =>
      (if Ascii.eqb c "&"%char then "&amp;"
       else if attr && Ascii.eqb c dq then "&quot;"
       else if negb attr && Ascii.eqb c "<"%char then "&lt;"
       else if negb attr && Ascii.eqb c ">"%char then "&gt;"
       else String c EmptyString) +:+ escape attr s'
  end.

Definition row_html (r : row) : string :=
  "<div data-id=" +:+ q +:+ escape true (row_id r) +:+ q +:+ " data-score=" +:+ q +:+
  escape true (row_data_score r) +:+ q +:+ ">" +:+ escape false (row_text r) +:+ "</div>".

(** Reading [#playerLabels.innerHTML]. *)
Definition rows_html (rows : list row) : string := foldr (fun r acc => row_html r +:+ acc) "" rows.

(** The parser of the fragment. *)
Fixpoint strip_prefix (p s : string) : option string :=
  match p, s with
  | EmptyString, _ => Some s
  | String a p', String b s' => if Ascii.eqb a b then strip_prefix p' s' else None
  | String _ _, EmptyString => None
  end.

(** The characters before the first [stop], and what follows [stop];
    a character reference ([&]) is outside the fragment. *)
Fixpoint span_until (stop : Ascii.ascii) (s : string) : option (string * string) :=
  match s with
  | EmptyString => None
  | String c s' =>
      if Ascii.eqb c stop then Some (EmptyString, s')
      else if Ascii.eqb c "&"%char then None
      else (fun '(a, rest) => (String c a, rest)) <$> span_until stop s'
  end.

Definition parse_row (s : string) : option (row * string) :=
  s1 ← strip_prefix ("<div data-id=" +:+ q) s;
  '(id, s2) ← span_until dq s1;
  s3 ← strip_prefix (" data-score=" +:+ q) s2;
  '(sc, s4) ← span_until dq s3;
  s5 ← strip_prefix ">" s4;
  '(txt, s6) ← span_until "<"%char s5;
  s7 ← strip_prefix "/div>" s6;
  Some (mk_row id sc txt, s7).

(** One round per row; the length of the input is enough. *)
Fixpoint parse_rows_fuel (fuel : nat) (s : string) : option (list row) :=
  match s with
  | EmptyString => Some []
  | String _ _ =>
      match fuel with
      | O => None
      | S fuel' => '(r, rest) ← parse_row s; (fun rs => r :: rs) <$> parse_rows_fuel fuel' rest
      end
  end.

Definition parse_rows (s : string) : option (list row) := parse_rows_fuel (String.length s) s.

(** Lines 73-75: [playerLabels.innerHTML += label_markup id bp]. *)
Definition append_label (id : string) (bp : BackEndPlayer.t) (rows : list row) : option (list row) :=
  parse_rows (rows_html rows +:+ label_markup id bp).

(** A string without markup characters. *)
Fixpoint plain (s : string) : bool :=
  match s with
  | EmptyString => true
  | String c s' =>
      negb (Ascii.eqb c "&"%char || Ascii.eqb c "<"%char || Ascii.eqb c ">"%char || Ascii.eqb c dq) && plain s'
  end.

(** A string that can stand inside the quoted attribute selector
    [div[data-id="..."]] of lines 79, 83 and 134 as itself: no
    backslash (an escape there) and no line break (which makes the
    selector invalid). *)
Fixpoint css_safe (s : string) : bool :=
  match s with
  | EmptyString => true
  | String c s' =>
      negb (Ascii.eqb c (Ascii.ascii_of_nat 92) || Ascii.eqb c (Ascii.ascii_of_nat 10) ||
            Ascii.eqb c (Ascii.ascii_of_nat 12) || Ascii.eqb c (Ascii.ascii_of_nat 13)) && css_safe s'
  end.

(** An id the handlers can write into markup and selectors verbatim. *)
Definition markup_free (id : string) : bool := plain id && css_safe id.

(** A snapshot whose ids and usernames carry no markup: on it the
    browser's rows are the plain rows of [Scoreboard] (C23). *)
Definition snapshot_markup_free (bps : jsobj BackEndPlayer.t) : bool :=
  forallb (fun e => markup_free e.1 && plain (BackEndPlayer.username e.2)) bps.

Definition row_plain (r : row) : Prop :=
  plain (row_id r) = true /\ plain (row_data_score r) = true /\ plain (row_text r) = true.

(** A username that closes its row and opens one of its own, with the
    id [x] and the [data-score] [s]. *)
Definition forging_username (a x s b : string) : string :=
  a +:+ "</div><div data-id=" +:+ q +:+ x +:+ q +:+ " data-score=" +:+ q +:+ s +:+ q +:+ ">" +:+ b.

(** ** Lemmas *)

(** [String.append] is [simpl never] in stdpp: its two equations. *)
Lemma str_app_nil_l (b : string) : "" +:+ b = b.
Proof. reflexivity. Qed.

Lemma str_app_cons x (a b : string) : String x a +:+ b = String x (a +:+ b).
Proof. reflexivity. Qed.

Lemma str_app_assoc (a b c : string) : (a +:+ b) +:+ c = a +:+ (b +:+ c).
Proof. induction a as [|x a IH]; [done|]. by rewrite !str_app_cons, IH. Qed.

Lemma str_app_nil_r (a : string) : a +:+ "" = a.
Proof. induction a as [|x a IH]; [done|]. by rewrite str_app_cons, IH. Qed.

Lemma str_length_app (a b : string) : String.length (a +:+ b) = (String.length a + String.length b)%nat.
Proof. induction a as [|x a IH]; [done|]. rewrite str_app_cons. simpl. by rewrite IH. Qed.

Lemma plain_app a b : plain (a +:+ b) = plain a && plain b.
Proof. induction a as [|x a IH]; [done|]. rewrite str_app_cons. simpl. by rewrite IH, andb_assoc. Qed.

Lemma plain_string_of_uint d : plain (NilEmpty.string_of_uint d) = true.
Proof. induction d; simpl; auto. Qed.

Lemma plain_js_String n : plain (js_String n) = true.
Proof.
  unfold js_String, NilZero.string_of_int, NilZero.string_of_uint.
  destruct (Z.to_int n) as [d|d]; destruct d; simpl; auto using plain_string_of_uint.
Qed.

Lemma escape_plain b s : plain s = true -> escape b s = s.
Proof.
  induction s as [|c s IH]; simpl; [done|]. intros H. apply andb_prop in H as [Hc Hs].
  rewrite IH by done.
  destruct (Ascii.eqb c "&"%char), (Ascii.eqb c "<"%char), (Ascii.eqb c ">"%char), (Ascii.eqb c dq),
    b; simpl in *; done.
Qed.

Lemma span_until_plain stop s rest :
  plain s = true -> stop = dq \/ stop = "<"%char ->
  span_until stop (s +:+ String stop rest) = Some (s, rest).
Proof.
  intros Hs Hstop. induction s as [|c s IH]; simpl.
  - by rewrite Ascii.eqb_refl.
  - simpl in Hs. apply andb_prop in Hs as [Hc Hs]. rewrite IH by done.
    destruct Hstop as [-> | ->];
      destruct (Ascii.eqb c "&"%char), (Ascii.eqb c "<"%char), (Ascii.eqb c ">"%char), (Ascii.eqb c dq);
      simpl in *; done.
Qed.

Lemma parse_row_html r rest :
  row_plain r -> parse_row (row_html r +:+ rest) = Some (r, rest).
Proof.
  destruct r as [id sc txt]. intros (Hi & Hs & Ht); simpl in *.
  unfold parse_row, row_html, q. rewrite !escape_plain by done. rewrite !str_app_assoc.
  rewrite ?str_app_cons, ?str_app_nil_l. simpl. rewrite span_until_plain by auto. simpl.
  rewrite span_until_plain by auto. simpl.
  rewrite span_until_plain by auto. done.
Qed.

Lemma parse_rows_fuel_step f s r rest :
  s <> EmptyString -> parse_row s = Some (r, rest) ->
  parse_rows_fuel (S f) s = (fun rs => r :: rs) <$> parse_rows_fuel f rest.
Proof. destruct s; [done|]. intros _ H. cbn [parse_rows_fuel]. by rewrite H. Qed.

Lemma row_html_nonempty r rest : row_html r +:+ rest <> EmptyString.
Proof. unfold row_html. simpl. discriminate. Qed.

Lemma rows_html_app l1 l2 : rows_html (l1 ++ l2) = rows_html l1 +:+ rows_html l2.
Proof.
  unfold rows_html. induction l1 as [|r l1 IH]; cbn [foldr app]; [done|].
  by rewrite IH, str_app_assoc.
Qed.

Lemma length_rows_html rows : (length rows <= String.length (rows_html rows))%nat.
Proof.
  induction rows as [|r rows IH]; simpl; [lia|].
  rewrite str_length_app. unfold row_html. simpl. lia.
Qed.

(** Parsing what the serializer wrote gives the rows back. *)
Lemma parse_rows_fuel_html rows f :
  Forall row_plain rows -> (length rows <= f)%nat -> parse_rows_fuel f (rows_html rows) = Some rows.
Proof.
  intros Hp. revert f. induction Hp as [|r rows Hr Hp IH]; intros f Hf; [by destruct f|].
  destruct f as [|f]; simpl in Hf; [lia|]. cbn [rows_html foldr].
  rewrite (parse_rows_fuel_step f _ r (rows_html rows)); [|apply row_html_nonempty|by apply parse_row_html].
  rewrite IH by lia. done.
Qed.

Lemma label_markup_row_of id bp :
  plain id = true -> plain (BackEndPlayer.username bp) = true ->
  label_markup id bp = row_html (row_of id bp) /\ row_plain (row_of id bp).
Proof.
  intros Hi Hu. assert (Ht : plain (BackEndPlayer.username bp +:+ ": " +:+ js_String (BackEndPlayer.score bp)) = true).
  { rewrite !plain_app, Hu, plain_js_String. done. }
  split; [|split_and!; simpl; auto using plain_js_String].
  unfold label_markup, row_html, row_of; simpl. rewrite !escape_plain by auto using plain_js_String.
  by rewrite !str_app_assoc.
Qed.

Lemma label_markup_forging id bp a x s b :
  plain id = true -> plain a = true -> plain x = true -> plain s = true -> plain b = true ->
  BackEndPlayer.username bp = forging_username a x s b ->
  label_markup id bp =
    rows_html [mk_row id (js_String (BackEndPlayer.score bp)) a;
               mk_row x s (b +:+ ": " +:+ js_String (BackEndPlayer.score bp))] /\
  Forall row_plain [mk_row id (js_String (BackEndPlayer.score bp)) a;
                    mk_row x s (b +:+ ": " +:+ js_String (BackEndPlayer.score bp))].
Proof.
  intros Hi Ha Hx Hs Hb Hu. pose proof (plain_js_String (BackEndPlayer.score bp)) as Hsc.
  split; [|repeat constructor; unfold row_plain; simpl; rewrite ?plain_app, ?Hb, ?Hsc; done].
  unfold label_markup. rewrite Hu. unfold rows_html, row_html, forging_username, q.
  cbn [foldr row_id row_data_score row_text].
  rewrite !escape_plain by (rewrite ?plain_app, ?Hb, ?Hsc; done).
  rewrite !str_app_assoc, ?str_app_cons, ?str_app_nil_l, ?str_app_nil_r. reflexivity.
Qed.

(** ** Properties *)

(** C23: when the ids, the usernames and the rows already shown hold
    no markup characters, [innerHTML += markup] (serialize, append,
    re-parse) leaves exactly the old rows followed by the new player's
    row: the append is the model's [add_row], and serializing then
    parsing the rows is the identity. *)
Theorem append_label_plain id bp rows :
  Forall row_plain rows -> plain id = true -> plain (BackEndPlayer.username bp) = true ->
  append_label id bp rows = Some (add_row id bp rows).
Proof.
  intros Hrows Hi Hu. destruct (label_markup_row_of id bp Hi Hu) as [Hm Hp].
  unfold append_label, add_row, parse_rows. rewrite Hm.
  rewrite <- (str_app_nil_r (row_html (row_of id bp))).
  change (row_html (row_of id bp) +:+ "") with (rows_html [row_of id bp]).
  rewrite <- rows_html_app. apply parse_rows_fuel_html; [by apply Forall_app; auto|].
  apply length_rows_html.
Qed.

(** C24: the username is written into [innerHTML] unescaped.  A
    player whose name closes its row and opens another, with any id [x]
    and any [data-score] [s], makes the append of that one new player
    produce two rows: its own, cut at the markup, and a forged row
    claiming [x] with score [s] and the rest of the name as its text. *)
Theorem append_label_forges id bp rows a x s b :
  Forall row_plain rows -> plain id = true -> plain a = true -> plain x = true ->
  plain s = true -> plain b = true ->
  BackEndPlayer.username bp = forging_username a x s b ->
  append_label id bp rows =
    Some (rows ++ [mk_row id (js_String (BackEndPlayer.score bp)) a;
                   mk_row x s (b +:+ ": " +:+ js_String (BackEndPlayer.score bp))])%list.
Proof.
  intros Hrows Hi Ha Hx Hs Hb Hu.
  destruct (label_markup_forging id bp a x s b Hi Ha Hx Hs Hb Hu) as [Hm Hp].
  unfold append_label, parse_rows. rewrite Hm, <- rows_html_app.
  apply parse_rows_fuel_html; [by apply Forall_app|apply length_rows_html].
Qed.

(** A player ["a"] named to forge the row of ["me"] with score 999. *)
Lemma append_label_forges_witness :
  Forall row_plain [] /\ plain "a" = true /\ plain "x" = true /\ plain "me" = true /\
  plain "999" = true /\ plain "y" = true /\
  BackEndPlayer.username (BackEndPlayer.mk 0 0 "c" (forging_username "x" "me" "999" "y") 0 0) =
    forging_username "x" "me" "999" "y" /\
  append_label "a" (BackEndPlayer.mk 0 0 "c" (forging_username "x" "me" "999" "y") 0 0) [] =
    Some ([] ++ [mk_row "a" (js_String 0) "x"; mk_row "me" "999" ("y" +:+ ": " +:+ js_String 0)])%list.
Proof.
  assert (H0 : Forall row_plain []) by constructor.
  split; [exact H0|]. do 6 (split; [reflexivity|]).
  exact (append_label_forges "a" (BackEndPlayer.mk 0 0 "c" (forging_username "x" "me" "999" "y") 0 0)
    [] "x" "me" "999" "y" H0 eq_refl eq_refl eq_refl eq_refl eq_refl eq_refl).
Defined.

Lemma append_label_plain_witness :
  Forall row_plain [row_of "z" (BackEndPlayer.mk 0 0 "c" "zed" (-4) 0)] /\
  plain "a" = true /\ plain (BackEndPlayer.username (BackEndPlayer.mk 0 0 "c" "bob" 3 0)) = true /\
  append_label "a" (BackEndPlayer.mk 0 0 "c" "bob" 3 0) [row_of "z" (BackEndPlayer.mk 0 0 "c" "zed" (-4) 0)] =
    Some (add_row "a" (BackEndPlayer.mk 0 0 "c" "bob" 3 0) [row_of "z" (BackEndPlayer.mk 0 0 "c" "zed" (-4) 0)]).
Proof.
  assert (H : Forall row_plain [row_of "z" (BackEndPlayer.mk 0 0 "c" "zed" (-4) 0)]).
  { repeat constructor; vm_compute; reflexivity. }
  split_and!; [exact H|reflexivity|reflexivity|].
  apply append_label_plain; [exact H|reflexivity|reflexivity].
Defined.

End Markup.
