(* ===== verification/Players.v ===== *)
(** * The [updatePlayers] handler (frontend.js lines 58-144)

    The handler reconciles the local store [frontEndPlayers] with a
    snapshot [backEndPlayers] in two loops.
    - The first loop ([upsert_player], lines 59-129) visits the snapshot:
      an unknown id gets a new [Player] and a new scoreboard row; a known
      id gets its row refreshed and re-sorted, its [target] set to the
      authoritative position, and, when it is the local player
      ([socket.id]), the prediction/reconciliation of [Reconcile].
    - The second loop ([remove_stale], lines 132-143) visits the store and
      deletes every id the snapshot lacks, with its row; when that id is
      the local player the username form is shown again.

    The state the handler touches is [view]: the store, the rows of
    [#playerLabels], whether [#usernameForm] is displayed, and
    [playerInputs].  A missing row makes [querySelector] return [null]
    and the handler throw: [Thrown] keeps the state reached so far.

    The second loop iterates over the keys the store had when the loop
    started; it deletes only the key it is visiting, and a [for...in]
    loop visits every key not deleted before its turn, so the two agree. *)

From S2P Require Import Prelude JsObject ForIn Entities Reconcile Scoreboard Markup.
Import Prediction Labels.
Local Open Scope js_scope.

Module UpdatePlayers.

Record view : Type := mk_view {
  frontEndPlayers : jsobj Player.t;
  playerLabels : list row;
  form_visible : bool;
  playerInputs : list input
}.

(** Lines 60-128, for one entry [id: backEndPlayer] of the snapshot. *)
Definition upsert_player (sid : string) (entry : string * BackEndPlayer.t) (st : view)
    : outcome view :=
  let '(id, bp) := entry in
  if negb (js_has id (frontEndPlayers st)) then
    Normal (mk_view (js_set id (new_player bp) (frontEndPlayers st))
              (add_row id bp (playerLabels st)) (form_visible st) (playerInputs st))
  else
    match refresh_row id bp (playerLabels st) with
    | None => Thrown (TypeError "querySelector(div[data-id]) returned null") st
    | Some rows =>
        let auth := (BackEndPlayer.x bp, BackEndPlayer.y bp) in
        let players := js_modify id (Player.with_target (Some auth)) (frontEndPlayers st) in
        if decide (id = sid) then
          let '(inputs, tg) := reconcile (BackEndPlayer.sequenceNumber bp) auth (playerInputs st) in
          Normal (mk_view (js_modify id (Player.with_target (Some tg)) players)
                    rows (form_visible st) inputs)
        else Normal (mk_view players rows (form_visible st) (playerInputs st))
    end.

(** Lines 133-142, for one key [id] of the store. *)
Definition remove_stale (sid : string) (backEndPlayers : jsobj BackEndPlayer.t)
    (id : string) (st : view) : outcome view :=
  if js_has id backEndPlayers then Normal st
  else
    match remove_row id (playerLabels st) with
    | None => Thrown (TypeError "divToDelete is null") st
    | Some rows =>
        Normal (mk_view (js_delete id (frontEndPlayers st)) rows
                  (if decide (id = sid) then true else form_visible st) (playerInputs st))
    end.

(** Lines 58-144. *)
Definition updatePlayers (sid : string) (backEndPlayers : jsobj BackEndPlayer.t) (st : view)
    : outcome view :=
  st1 <- for_each (upsert_player sid) backEndPlayers st ;;
  for_each (remove_stale sid backEndPlayers) (js_keys (frontEndPlayers st1)) st1.

(** Lines 58-144 with the second loop run as JS enumerates the store
    ([for_in], one unit of fuel per stored key plus one). *)
Definition updatePlayers_js (sid : string) (backEndPlayers : jsobj BackEndPlayer.t) (st : view)
    : option (outcome view) :=
  match for_each (upsert_player sid) backEndPlayers st with
  | Normal st1 =>
      for_in (fun v => js_keys (frontEndPlayers v)) (remove_stale sid backEndPlayers)
        (S (length (js_keys (frontEndPlayers st1)))) [] st1
  | Thrown e st1 => Some (Thrown e st1)
  end.

(** The invariant: the store has no duplicate id and its ids are
    exactly the ids of the rows, each once. *)
Definition view_inv (st : view) : Prop :=
  js_wf (frontEndPlayers st) /\ map row_id (playerLabels st) ≡ₚ js_keys (frontEndPlayers st).

(** The empty page: no player, no row, the form displayed. *)
Definition empty_view : view := mk_view [] [] true [].

Definition bp_score (sc : Z) : BackEndPlayer.t :=
  BackEndPlayer.mk 0 0 "hsl(0, 100%, 50%)" "p" sc 0.

(** Every id of the store can be written into a selector verbatim. *)
Definition keys_markup_free (st : view) : Prop :=
  forallb Markup.markup_free (js_keys (frontEndPlayers st)) = true.

(** The handler only ever drops a prefix of [playerInputs]. *)
Definition inputs_shrink (v v' : view) : Prop :=
  exists pre, playerInputs v = pre ++ playerInputs v'.

(** ** Lemmas: the first loop *)

Lemma add_row_ids id bp rows : map row_id (add_row id bp rows) = map row_id rows ++ [id].
Proof. unfold add_row. by rewrite map_app. Qed.

Lemma keys_markup_free_snapshot bps st :
  Markup.snapshot_markup_free bps = true ->
  (forall k, k ∈ js_keys (frontEndPlayers st) <-> k ∈ js_keys bps) -> keys_markup_free st.
Proof.
  intros Hb Hk. apply forallb_forall. intros k Hin.
  apply list_elem_of_In, Hk, list_elem_of_In in Hin. unfold js_keys in Hin.
  apply in_map_iff in Hin as ([k' bp] & <- & Hin).
  unfold Markup.snapshot_markup_free in Hb. rewrite forallb_forall in Hb.
  apply Hb, andb_prop in Hin as [? _]. done.
Qed.

Lemma upsert_player_step sid id bp st :
  view_inv st ->
  exists st', upsert_player sid (id, bp) st = Normal st' /\ view_inv st' /\
    js_keys (frontEndPlayers st') =
      if js_has id (frontEndPlayers st) then js_keys (frontEndPlayers st)
      else js_keys (frontEndPlayers st) ++ [id].
Proof.
  intros [Hwf Hperm]. simpl. destruct (js_has id (frontEndPlayers st)) eqn:Hh; simpl.
  - assert (Hin : id ∈ map row_id (playerLabels st)).
    { rewrite Hperm. by apply js_has_spec. }
    destruct (update_row_Some id bp _ Hin) as [rows0 Hu].
    assert (Hr : refresh_row id bp (playerLabels st) = Some (sort_rows rows0)).
    { unfold refresh_row. by rewrite Hu. }
    pose proof (refresh_row_ids _ _ _ _ Hr) as Hids. rewrite Hr.
    case_decide; repeat case_match; eexists; split_and!; try reflexivity;
      unfold view_inv; simpl; rewrite ?js_keys_modify;
      try done; (split; [auto with client | by rewrite Hids]).
  - eexists; split_and!; [reflexivity| |].
    + split; cbn [frontEndPlayers playerLabels]; [auto with client|].
      rewrite add_row_ids, js_keys_set, Hh. by rewrite Hperm.
    + cbn [frontEndPlayers]. by rewrite js_keys_set, Hh.
Qed.

(** After the first loop the store holds the old ids and the snapshot's. *)
Lemma upsert_loop sid bps st :
  view_inv st ->
  exists st1, for_each (upsert_player sid) bps st = Normal st1 /\ view_inv st1 /\
    forall k, k ∈ js_keys (frontEndPlayers st1) <->
              k ∈ js_keys (frontEndPlayers st) \/ k ∈ js_keys bps.
Proof.
  intros Hinv.
  apply (for_each_inv (upsert_player sid)
    (fun pre st' => view_inv st' /\ forall k, k ∈ js_keys (frontEndPlayers st') <->
       k ∈ js_keys (frontEndPlayers st) \/ k ∈ js_keys pre)).
  - intros pre [id bp] post s' _ [Hi Hk].
    destruct (upsert_player_step sid id bp s' Hi) as (s'' & Hs & Hi' & Hkeys).
    exists s''. split_and!; [done|done|]. intros k. rewrite Hkeys.
    unfold js_keys in *. rewrite map_app. simpl.
    destruct (js_has id (frontEndPlayers s')) eqn:Hh.
    + apply js_has_spec in Hh. rewrite elem_of_app, Hk. set_solver.
    + rewrite !elem_of_app, Hk. set_solver.
  - split; [done|]. intros k. simpl. set_solver.
Qed.

(** ** Lemmas: the second loop *)

Lemma remove_stale_keep sid bps id st :
  js_has id bps = true -> remove_stale sid bps id st = Normal st.
Proof. unfold remove_stale. by intros ->. Qed.

Lemma remove_stale_step sid bps id st :
  view_inv st -> id ∈ js_keys (frontEndPlayers st) -> js_has id bps = false ->
  exists rows, remove_row id (playerLabels st) = Some rows /\
    remove_stale sid bps id st =
      Normal (mk_view (js_delete id (frontEndPlayers st)) rows
                (if decide (id = sid) then true else form_visible st) (playerInputs st)) /\
    view_inv (mk_view (js_delete id (frontEndPlayers st)) rows
                (if decide (id = sid) then true else form_visible st) (playerInputs st)).
Proof.
  intros [Hwf Hperm] Hin Hb.
  assert (Hr : id ∈ map row_id (playerLabels st)) by (by rewrite Hperm).
  destruct (remove_row_Some id _ Hr) as [rows Hrm].
  exists rows. unfold remove_stale. rewrite Hb, Hrm. split_and!; [done|done|].
  split; simpl; [auto with client|].
  destruct (remove_row_ids _ _ _ Hrm) as (pre & post & H1 & H2 & Hpre).
  rewrite H2, js_keys_delete, <- Hperm, H1.
  unfold view_inv, js_wf in *. rewrite <- Hperm, H1 in Hwf.
  apply NoDup_app in Hwf as (_ & Hdisj & Hnd). apply NoDup_cons in Hnd as [Hpost _].
  rewrite filter_app, filter_cons_False by naive_solver.
  rewrite !filter_all; [done| |]; apply Forall_forall; set_solver.
Qed.

(** After the second loop the store holds exactly the snapshot's ids
    among those it held before. *)
Lemma remove_loop sid bps st :
  view_inv st ->
  exists st2, for_each (remove_stale sid bps) (js_keys (frontEndPlayers st)) st = Normal st2 /\
    view_inv st2 /\
    forall k, k ∈ js_keys (frontEndPlayers st2) <->
              k ∈ js_keys (frontEndPlayers st) /\ k ∈ js_keys bps.
Proof.
  intros Hinv. set (K := js_keys (frontEndPlayers st)).
  assert (HK : NoDup K) by apply Hinv.
  cut (exists st2, for_each (remove_stale sid bps) K st = Normal st2 /\ view_inv st2 /\
         forall k, k ∈ js_keys (frontEndPlayers st2) <-> k ∈ K /\ (k ∈ K -> k ∈ js_keys bps)).
  { intros (st2 & Hrun & Hi & Hk). exists st2. split_and!; [done|done|].
    intros k. rewrite Hk. naive_solver. }
  apply (for_each_inv (remove_stale sid bps)
    (fun pre st' => view_inv st' /\ forall k, k ∈ js_keys (frontEndPlayers st') <->
       k ∈ K /\ (k ∈ pre -> k ∈ js_keys bps))).
  - intros pre id post s' HKe [Hi Hk].
    assert (Hnot : id ∉ pre).
    { rewrite HKe in HK. apply NoDup_app in HK as (_ & Hd & _). set_solver. }
    destruct (js_has id bps) eqn:Hb.
    + exists s'. rewrite remove_stale_keep by done. split_and!; [done|done|].
      intros k. rewrite Hk. apply js_has_spec in Hb. set_solver.
    + assert (Hin : id ∈ js_keys (frontEndPlayers s')).
      { apply Hk. rewrite HKe. set_solver. }
      destruct (remove_stale_step sid bps id s' Hi Hin Hb) as (rows & _ & -> & Hi').
      eexists; split_and!; [done|done|]. intros k. simpl.
      rewrite js_keys_delete, list_elem_of_filter, Hk.
      assert (id ∉ js_keys bps) by (rewrite <- js_has_spec; congruence).
      rewrite elem_of_app, list_elem_of_singleton. naive_solver.
  - split; [done|]. intros k. set_solver.
Qed.

(** A loop over keys all present in the snapshot deletes nothing. *)
Lemma remove_loop_noop sid bps ks st :
  Forall (fun k => k ∈ js_keys bps) ks -> for_each (remove_stale sid bps) ks st = Normal st.
Proof.
  induction 1 as [|k ks Hk _ IH]; [done|]. simpl.
  rewrite remove_stale_keep; [done|]. by apply js_has_spec.
Qed.

(** A loop over snapshot entries already stored creates nothing. *)
Lemma upsert_loop_known sid bps st :
  view_inv st -> Forall (fun k => k ∈ js_keys (frontEndPlayers st)) (js_keys bps) ->
  exists st1, for_each (upsert_player sid) bps st = Normal st1 /\ view_inv st1 /\
    js_keys (frontEndPlayers st1) = js_keys (frontEndPlayers st).
Proof.
  intros Hinv Hall.
  apply (for_each_inv (upsert_player sid)
    (fun _ st' => view_inv st' /\ js_keys (frontEndPlayers st') = js_keys (frontEndPlayers st))).
  - intros pre [id bp] post s' Hbps [Hi Hk].
    destruct (upsert_player_step sid id bp s' Hi) as (s'' & Hs & Hi' & Hkeys).
    exists s''. split_and!; [done|done|]. rewrite Hkeys.
    assert (Hin : id ∈ js_keys (frontEndPlayers s')).
    { rewrite Hk. rewrite Forall_forall in Hall. apply Hall.
      unfold js_keys. rewrite Hbps, map_app. set_solver. }
    apply js_has_spec in Hin. by rewrite Hin.
  - done.
Qed.

(** Visiting the local player's key when the snapshot lacks it shows
    the form; later visits never hide it. *)
Lemma remove_loop_form sid bps ks st :
  view_inv st -> NoDup ks -> sid ∈ ks -> sid ∉ js_keys bps ->
  (forall k, k ∈ ks -> k ∈ js_keys (frontEndPlayers st)) ->
  exists st2, for_each (remove_stale sid bps) ks st = Normal st2 /\ form_visible st2 = true.
Proof.
  intros Hinv Hnd Hsid Hbps Hks.
  cut (exists st2, for_each (remove_stale sid bps) ks st = Normal st2 /\
         view_inv st2 /\ (sid ∈ ks -> form_visible st2 = true) /\
         (forall k, k ∈ js_keys (frontEndPlayers st2) <-> k ∈ js_keys (frontEndPlayers st) /\
                    (k ∈ ks -> k ∈ js_keys bps))).
  { intros (st2 & ? & _ & Hf & _). eauto. }
  apply (for_each_inv (remove_stale sid bps)
    (fun pre st' => view_inv st' /\ (sid ∈ pre -> form_visible st' = true) /\
       forall k, k ∈ js_keys (frontEndPlayers st') <-> k ∈ js_keys (frontEndPlayers st) /\
                 (k ∈ pre -> k ∈ js_keys bps))).
  - intros pre id post s' Hl (Hi & Hf & Hk).
    assert (Hnot : id ∉ pre).
    { rewrite Hl in Hnd. apply NoDup_app in Hnd as (_ & Hd & _). set_solver. }
    destruct (js_has id bps) eqn:Hb.
    + exists s'. rewrite remove_stale_keep by done. split_and!; [done|done| |].
      * rewrite elem_of_app, list_elem_of_singleton. intros [? | ->]; [auto|].
        apply js_has_spec in Hb. done.
      * intros k. rewrite Hk, elem_of_app, list_elem_of_singleton.
        apply js_has_spec in Hb. naive_solver.
    + assert (Hin : id ∈ js_keys (frontEndPlayers s')).
      { apply Hk. split; [apply Hks; rewrite Hl; set_solver|done]. }
      destruct (remove_stale_step sid bps id s' Hi Hin Hb) as (rows & _ & -> & Hi').
      eexists; split_and!; [done|done| |]; simpl.
      * rewrite elem_of_app, list_elem_of_singleton. intros Hs.
        case_decide; [done|]. destruct Hs as [Hs|]; [auto|congruence].
      * intros k. rewrite js_keys_delete, list_elem_of_filter, Hk,
          elem_of_app, list_elem_of_singleton.
        assert (id ∉ js_keys bps) by (rewrite <- js_has_spec; congruence).
        naive_solver.
  - split_and!; [done|set_solver|]. intros k. set_solver.
Qed.

#[export] Instance inputs_shrink_preorder : PreOrder inputs_shrink.
Proof.
  split.
  - intros v. by exists [].
  - intros v1 v2 v3 [p1 H1] [p2 H2]. exists (p1 ++ p2). by rewrite H1, H2, app_assoc.
Qed.

Lemma updatePlayers_inputs_shrink sid bps v v' :
  updatePlayers sid bps v = Normal v' -> inputs_shrink v v'.
Proof.
  unfold updatePlayers. destruct (for_each (upsert_player sid) bps v) as [v1|e v1] eqn:E;
    simpl; [|done].
  intros H2. transitivity v1.
  - refine (for_each_preorder (upsert_player sid) inputs_shrink bps v v1 _ E).
    intros [id bp] t t'. unfold upsert_player.
    destruct (js_has id (frontEndPlayers t)); simpl; [|intros Heq; injection Heq as <-; by exists []].
    destruct (refresh_row id bp (playerLabels t)); [|done].
    case_decide; intros Heq; injection Heq as <-; simpl; [|by exists []].
    apply trim_acknowledged_suffix.
  - refine (for_each_preorder (remove_stale sid bps) inputs_shrink _ v1 v' _ H2).
    intros id t t'. unfold remove_stale.
    destruct (js_has id bps); [intros Heq; injection Heq as <-; by exists []|].
    destruct (remove_row id (playerLabels t)); [|done].
    intros Heq; injection Heq as <-. by exists [].
Qed.

(** The safety argument, shared by the later proofs. *)
Lemma updatePlayers_normal sid bps st :
  view_inv st ->
  exists st', updatePlayers sid bps st = Normal st' /\ view_inv st' /\
    forall k, k ∈ js_keys (frontEndPlayers st') <-> k ∈ js_keys bps.
Proof.
  intros Hinv. unfold updatePlayers.
  destruct (upsert_loop sid bps st Hinv) as (st1 & -> & Hi1 & Hk1). simpl.
  destruct (remove_loop sid bps st1 Hi1) as (st2 & -> & Hi2 & Hk2).
  exists st2. split_and!; [done|done|]. intros k. rewrite Hk2, Hk1. naive_solver.
Qed.

(** The first loop keeps the store free of duplicate ids. *)
Lemma upsert_player_loop_wf sid bps st st1 :
  for_each (upsert_player sid) bps st = Normal st1 ->
  js_wf (frontEndPlayers st) -> js_wf (frontEndPlayers st1).
Proof.
  revert st; induction bps as [|[id bp] bps IH]; intros st; cbn [for_each].
  - intros Heq; by injection Heq as <-.
  - destruct (upsert_player sid (id, bp) st) as [t|e t] eqn:E; intros Hrun Hwf;
      cbn [obind] in Hrun; [|discriminate Hrun].
    apply (IH t Hrun). revert E. unfold upsert_player.
    repeat case_match; intros Heq; simplify_eq/=; auto with client.
Qed.

(** The second loop deletes at most the key it visits. *)
Lemma remove_stale_deletes sid bps :
  deletes_at_most_visited (fun v => js_keys (frontEndPlayers v)) (remove_stale sid bps).
Proof.
  intros id st st'. unfold remove_stale.
  destruct (js_has id bps); [intros Heq; injection Heq as <-; by left|].
  destruct (remove_row id (playerLabels st)); [|done].
  intros Heq; injection Heq as <-. right. apply js_keys_delete.
Qed.

(** Every row the handler writes has an integer [data-score]; a throw
    leaves the rows as they were. *)
Lemma upsert_player_typed sid e st :
  rows_typed (playerLabels st) -> rows_typed (playerLabels (final_state (upsert_player sid e st))).
Proof.
  destruct e as [id bp]. unfold upsert_player. intros Ht.
  destruct (js_has id (frontEndPlayers st)); simpl.
  - destruct (refresh_row id bp (playerLabels st)) as [rows|] eqn:E; simpl; [|done].
    destruct (refresh_row_typed _ _ _ _ Ht E) as [Ht' _].
    repeat case_match; simpl; done.
  - unfold add_row, rows_typed. apply Forall_app. auto with client.
Qed.

Lemma remove_stale_typed sid bps id st :
  rows_typed (playerLabels st) -> rows_typed (playerLabels (final_state (remove_stale sid bps id st))).
Proof.
  unfold remove_stale. intros Ht. destruct (js_has id bps); simpl; [done|].
  destruct (remove_row id (playerLabels st)) eqn:E; simpl; [|done].
  first [done | by apply (remove_row_typed _ _ _ Ht E)].
Qed.

Lemma updatePlayers_typed sid bps st :
  rows_typed (playerLabels st) ->
  rows_typed (playerLabels (final_state (updatePlayers sid bps st))).
Proof.
  intros Ht. unfold updatePlayers.
  apply (obind_final_inv (fun v => rows_typed (playerLabels v))).
  - apply for_each_final_inv; [apply upsert_player_typed|done].
  - intros v Hv. apply for_each_final_inv; [apply remove_stale_typed|done].
Qed.

(** A snapshot entry for a known player, on typed rows, leaves the
    rows in descending score order. *)
Lemma upsert_known_sorts sid id bp st st' :
  rows_typed (playerLabels st) -> js_has id (frontEndPlayers st) = true ->
  upsert_player sid (id, bp) st = Normal st' -> rows_sorted (playerLabels st').
Proof.
  intros Ht Hh. unfold upsert_player. rewrite Hh. simpl.
  destruct (refresh_row id bp (playerLabels st)) as [rows|] eqn:E; [|done].
  destruct (refresh_row_typed _ _ _ _ Ht E) as [_ Hs].
  repeat case_match; intros Heq; injection Heq as <-; done.
Qed.

(** ** Properties *)

(** The claims below are stated on snapshots and stores whose ids and
    usernames carry no markup ([snapshot_markup_free], [keys_markup_free]):
    there the rows the browser builds from the markup of lines 75 and 80
    are the plain rows of the model (C23).  A username with markup is
    parsed as HTML instead: it forges rows (C24) or nests a [div] that
    the sort of lines 88-100 detaches with a NotFoundError. *)

(** C9: on a state where every stored player has exactly one row, the
    handler, given a snapshot without markup, never throws (no
    [querySelector] returns [null]), keeps that invariant, and leaves in
    the store exactly the ids of the snapshot: new ids are created,
    known ones kept, vanished ones deleted. *)
Theorem updatePlayers_safe sid bps st :
  view_inv st -> Markup.snapshot_markup_free bps = true -> keys_markup_free st ->
  exists st', updatePlayers sid bps st = Normal st' /\ view_inv st' /\
    forall k, k ∈ js_keys (frontEndPlayers st') <-> k ∈ js_keys bps.
Proof. intros Hinv _ _. by apply updatePlayers_normal. Qed.

(** C10: a snapshot entry for the already known local player sets its
    target to the authoritative position plus the replay of the inputs
    the server has not acknowledged, and trims the log accordingly; the
    rest of the player record is kept. *)
Theorem upsert_local_reconciles sid bp p st :
  Markup.markup_free sid = true -> Markup.plain (BackEndPlayer.username bp) = true ->
  view_inv st -> js_get sid (frontEndPlayers st) = Some p ->
  exists st', upsert_player sid (sid, bp) st = Normal st' /\
    playerInputs st' = trim_acknowledged (BackEndPlayer.sequenceNumber bp) (playerInputs st) /\
    js_get sid (frontEndPlayers st') =
      Some (Player.with_target
              (Some (replay (playerInputs st') (BackEndPlayer.x bp, BackEndPlayer.y bp))) p).
Proof.
  intros _ _ Hinv Hp.
  destruct (upsert_player_step sid sid bp st Hinv) as (st' & Hrun & _ & _).
  exists st'. split; [done|]. revert Hrun. simpl.
  assert (Hh : js_has sid (frontEndPlayers st) = true) by (unfold js_has; by rewrite Hp).
  rewrite Hh. simpl. destruct (refresh_row _ _ _); [|done].
  rewrite decide_True by done. intros Heq. injection Heq as <-. simpl.
  split; [done|]. rewrite !js_get_modify, !decide_True, Hp by done. reflexivity.
Qed.

(** C11: a snapshot entry without markup for an id the store lacks
    creates the player from the payload with no target, appends exactly
    its row after the others, and leaves the pending inputs untouched
    even when the id is the local player's: the first snapshot of the
    local player is not reconciled. *)
Theorem upsert_new_player sid id bp st :
  Markup.markup_free id = true -> Markup.plain (BackEndPlayer.username bp) = true ->
  js_get id (frontEndPlayers st) = None ->
  exists st', upsert_player sid (id, bp) st = Normal st' /\
    js_get id (frontEndPlayers st') = Some (new_player bp) /\
    Player.target (new_player bp) = None /\
    playerInputs st' = playerInputs st /\
    playerLabels st' = playerLabels st ++ [row_of id bp].
Proof.
  intros _ _ Hn. simpl. unfold js_has. rewrite Hn. simpl.
  eexists; split_and!; [done| |done|done|done]; simpl.
  by rewrite js_get_set, decide_True.
Qed.

(** C12: applying the same snapshot twice creates and deletes nothing
    the second time: the store keeps exactly its keys, in order, and the
    scoreboard exactly its rows' ids (re-sorted). *)
Theorem updatePlayers_idempotent_keys sid bps st st1 :
  view_inv st -> Markup.snapshot_markup_free bps = true -> keys_markup_free st ->
  updatePlayers sid bps st = Normal st1 ->
  exists st2, updatePlayers sid bps st1 = Normal st2 /\
    js_keys (frontEndPlayers st2) = js_keys (frontEndPlayers st1) /\
    map row_id (playerLabels st2) ≡ₚ map row_id (playerLabels st1).
Proof.
  intros Hinv _ _ Hrun.
  destruct (updatePlayers_normal sid bps st Hinv) as (st1' & Hrun' & Hi1 & Hk1).
  rewrite Hrun in Hrun'. injection Hrun' as <-.
  destruct (upsert_loop_known sid bps st1 Hi1) as (st2 & Hl & [Hwf2 Hp2] & Hk2).
  { apply Forall_forall. intros k. by rewrite Hk1. }
  exists st2. unfold updatePlayers. rewrite Hl. simpl.
  rewrite remove_loop_noop.
  - split_and!; [done|done|]. destruct Hi1 as [_ Hp1]. by rewrite Hp2, Hk2, Hp1.
  - apply Forall_forall. intros k. rewrite Hk2. by apply Hk1.
Qed.

(** C13: when a snapshot without markup omits the local player, the
    handler deletes it from the store and shows the username form again
    (scenario D). *)
Theorem updatePlayers_local_removed sid bps st :
  view_inv st -> Markup.snapshot_markup_free bps = true -> keys_markup_free st ->
  sid ∈ js_keys (frontEndPlayers st) -> sid ∉ js_keys bps ->
  exists st', updatePlayers sid bps st = Normal st' /\
    sid ∉ js_keys (frontEndPlayers st') /\ form_visible st' = true.
Proof.
  intros Hinv _ _ Hsid Hbps.
  destruct (updatePlayers_normal sid bps st Hinv) as (st' & Hrun & _ & Hk).
  exists st'. split_and!; [done|by rewrite Hk|].
  revert Hrun. unfold updatePlayers.
  destruct (upsert_loop sid bps st Hinv) as (st1 & -> & Hi1 & Hk1). simpl. intros Hrun.
  destruct (remove_loop_form sid bps (js_keys (frontEndPlayers st1)) st1)
    as (st2 & Hrun2 & Hf); try done.
  - apply Hi1.
  - apply Hk1. by left.
  - rewrite Hrun in Hrun2. by injection Hrun2 as ->.
Qed.

Lemma empty_view_inv : view_inv empty_view.
Proof. split; [constructor|done]. Qed.

Lemma updatePlayers_safe_witness :
  view_inv empty_view /\ Markup.snapshot_markup_free [("abc", bp_score 7)] = true /\ keys_markup_free empty_view /\
  exists st', updatePlayers "me" [("abc", bp_score 7)] empty_view = Normal st' /\ view_inv st' /\
    forall k, k ∈ js_keys (frontEndPlayers st') <-> k ∈ js_keys [("abc", bp_score 7)].
Proof.
  split_and!; [apply empty_view_inv|reflexivity|reflexivity|].
  apply updatePlayers_safe; [apply empty_view_inv|reflexivity|reflexivity].
Defined.

Lemma updatePlayers_local_removed_witness :
  view_inv (mk_view [("me", new_player (bp_score 0))] [row_of "me" (bp_score 0)] false []) /\
  Markup.snapshot_markup_free [] = true /\
  keys_markup_free (mk_view [("me", new_player (bp_score 0))] [row_of "me" (bp_score 0)] false []) /\
  exists st', updatePlayers "me" [] (mk_view [("me", new_player (bp_score 0))]
                                     [row_of "me" (bp_score 0)] false []) = Normal st' /\
    "me" ∉ js_keys (frontEndPlayers st') /\ form_visible st' = true.
Proof.
  assert (Hi : view_inv (mk_view [("me", new_player (bp_score 0))] [row_of "me" (bp_score 0)] false [])).
  { split; [repeat constructor; set_solver|done]. }
  split; [exact Hi|]. split; [reflexivity|]. split; [reflexivity|].
  apply updatePlayers_local_removed; [exact Hi|reflexivity|reflexivity|simpl; set_solver|simpl; set_solver].
Defined.

Lemma updatePlayers_idempotent_keys_witness :
  exists st2, updatePlayers "me" [("me", bp_score 3)] (mk_view [("me", new_player (bp_score 3))] [row_of "me" (bp_score 3)] true []) = Normal st2 /\
    js_keys (frontEndPlayers st2) = ["me"] /\
    map row_id (playerLabels st2) ≡ₚ ["me"].
Proof.
  apply (updatePlayers_idempotent_keys "me" [("me", bp_score 3)] empty_view);
    [apply empty_view_inv|reflexivity|reflexivity|reflexivity].
Defined.

Lemma upsert_local_reconciles_witness :
  Markup.markup_free "me" = true /\ Markup.plain (BackEndPlayer.username (bp_score 0)) = true /\
  view_inv (mk_view [("me", new_player (bp_score 0))] [row_of "me" (bp_score 0)] false scenarioA_log) /\
  js_get "me" [("me", new_player (bp_score 0))] = Some (new_player (bp_score 0)) /\
  exists st', upsert_player "me" ("me", bp_score 0)
      (mk_view [("me", new_player (bp_score 0))] [row_of "me" (bp_score 0)] false scenarioA_log) = Normal st' /\
    playerInputs st' = trim_acknowledged 0 scenarioA_log /\
    js_get "me" (frontEndPlayers st') =
      Some (Player.with_target (Some (replay (playerInputs st') (0, 0)%Q)) (new_player (bp_score 0))).
Proof.
  assert (Hi : view_inv (mk_view [("me", new_player (bp_score 0))] [row_of "me" (bp_score 0)] false scenarioA_log)).
  { split; [repeat constructor; set_solver|done]. }
  split; [reflexivity|]. split; [reflexivity|]. split; [exact Hi|]. split; [reflexivity|].
  apply (upsert_local_reconciles "me" (bp_score 0) (new_player (bp_score 0)) _ eq_refl eq_refl Hi).
  reflexivity.
Defined.

Lemma upsert_new_player_witness :
  Markup.markup_free "abc" = true /\ Markup.plain (BackEndPlayer.username (bp_score 1)) = true /\
  js_get "abc" (frontEndPlayers empty_view) = None /\
  exists st', upsert_player "me" ("abc", bp_score 1) empty_view = Normal st' /\
    js_get "abc" (frontEndPlayers st') = Some (new_player (bp_score 1)) /\
    Player.target (new_player (bp_score 1)) = None /\
    playerInputs st' = playerInputs empty_view /\
    playerLabels st' = playerLabels empty_view ++ [row_of "abc" (bp_score 1)].
Proof.
  do 3 (split; [reflexivity|]). apply upsert_new_player; reflexivity.
Defined.

(** C14: the rows are not kept sorted by score: the row of a new
    player is appended without sorting, so a new player scoring above
    the last row leaves the scoreboard out of descending order, even
    when it was sorted before. *)
Theorem updatePlayers_rows_unsorted sid id bp st r :
  Markup.markup_free id = true -> Markup.plain (BackEndPlayer.username bp) = true ->
  js_get id (frontEndPlayers st) = None -> last (playerLabels st) = Some r ->
  (score_of r < BackEndPlayer.score bp)%Z ->
  exists st', upsert_player sid (id, bp) st = Normal st' /\ ~ rows_sorted (playerLabels st').
Proof.
  intros Hi Hu Hn Hl Hlt. destruct (upsert_new_player sid id bp st Hi Hu Hn) as (st' & Hr & _ & _ & _ & Hrows).
  exists st'. split; [done|]. rewrite Hrows. apply last_Some in Hl as [pre ->].
  rewrite <- app_assoc. simpl. unfold rows_sorted. intros Hs. apply Sorted_last2 in Hs.
  rewrite score_of_row_of in Hs. lia.
Qed.

Lemma updatePlayers_rows_unsorted_witness :
  Markup.markup_free "b" = true /\ Markup.plain (BackEndPlayer.username (bp_score 5)) = true /\
  js_get "b" (frontEndPlayers (mk_view [("a", new_player (bp_score 0))] [row_of "a" (bp_score 0)] true [])) = None /\
  last (playerLabels (mk_view [("a", new_player (bp_score 0))] [row_of "a" (bp_score 0)] true [])) =
    Some (row_of "a" (bp_score 0)) /\
  (score_of (row_of "a" (bp_score 0)) < BackEndPlayer.score (bp_score 5))%Z /\
  exists st', upsert_player "me" ("b", bp_score 5)
      (mk_view [("a", new_player (bp_score 0))] [row_of "a" (bp_score 0)] true []) = Normal st' /\
    ~ rows_sorted (playerLabels st').
Proof.
  assert (H : (score_of (row_of "a" (bp_score 0)) < BackEndPlayer.score (bp_score 5))%Z) by (vm_compute; reflexivity).
  do 4 (split; [reflexivity|]). split; [exact H|].
  apply (updatePlayers_rows_unsorted "me" "b" (bp_score 5) _ (row_of "a" (bp_score 0)));
    [reflexivity|reflexivity|reflexivity|reflexivity|exact H].
Defined.

(** When the store has no duplicate id, running the handler's second
    loop as JS enumerates the store it deletes from (line 132) gives the
    same outcome, exception or not, as the loop over the keys the store
    had when the loop started: [updatePlayers] is the JS enumeration. *)
Theorem updatePlayers_enumeration sid bps st :
  js_wf (frontEndPlayers st) -> updatePlayers_js sid bps st = Some (updatePlayers sid bps st).
Proof.
  intros Hwf. unfold updatePlayers_js, updatePlayers.
  destruct (for_each (upsert_player sid) bps st) as [st1|e st1] eqn:E; [|done]. simpl.
  apply (for_in_for_each (fun v => js_keys (frontEndPlayers v)) (remove_stale sid bps) st1);
    [apply remove_stale_deletes|].
  exact (upsert_player_loop_wf sid bps st st1 E Hwf).
Qed.

End UpdatePlayers.
