(* ===== verification/Projectiles.v ===== *)
(** * The [updateProjectiles] handler (frontend.js lines 30-55)

    The first loop visits the snapshot: an unknown id gets a new
    [Projectile] whose color is read from its owner in [frontEndPlayers]
    (undefined when the owner is not known), a known id is advanced by
    the velocity the snapshot carries (dead reckoning; its position and
    color are otherwise kept).  The second loop deletes every stored id
    the snapshot lacks.  Nothing in this handler can throw on a
    well-formed payload, so it is a total function on the store.

    The second loop visits the keys the store had when it started and
    deletes only the key it visits, as in [Players]. *)

From S2P Require Import Prelude JsObject ForIn Entities.

Module UpdateProjectiles.

(** Lines 31-47, for one entry [id: backEndProjectile]. *)
Definition upsert_projectile (frontEndPlayers : jsobj Player.t)
    (projs : jsobj Projectile.t) (entry : string * BackEndProjectile.t) : jsobj Projectile.t :=
  let '(id, bj) := entry in
  if negb (js_has id projs) then js_set id (new_projectile frontEndPlayers bj) projs
  else
    let v := BackEndProjectile.velocity bj in
    js_modify id (fun p => Projectile.with_pos (Projectile.x p + v.1)%Q
                                               (Projectile.y p + v.2)%Q p) projs.

(** Lines 50-54, for one stored key. *)
Definition drop_missing {B : Type} (backEndProjectiles : jsobj B)
    (projs : jsobj Projectile.t) (id : string) : jsobj Projectile.t :=
  if js_has id backEndProjectiles then projs else js_delete id projs.

(** Lines 30-55. *)
Definition updateProjectiles (frontEndPlayers : jsobj Player.t)
    (backEndProjectiles : jsobj BackEndProjectile.t) (projs : jsobj Projectile.t)
    : jsobj Projectile.t :=
  let p1 := fold_left (upsert_projectile frontEndPlayers) backEndProjectiles projs in
  fold_left (drop_missing backEndProjectiles) (js_keys p1) p1.

(** Lines 30-55 with the second loop run as JS enumerates the store
    ([for_in], one unit of fuel per stored key plus one). *)
Definition updateProjectiles_js (frontEndPlayers : jsobj Player.t)
    (backEndProjectiles : jsobj BackEndProjectile.t) (projs : jsobj Projectile.t)
    : option (jsobj Projectile.t) :=
  let p1 := fold_left (upsert_projectile frontEndPlayers) backEndProjectiles projs in
  final_state <$> for_in js_keys (fun k p => Normal (drop_missing backEndProjectiles p k))
                    (S (length (js_keys p1))) [] p1.

(** The value a known projectile takes: advanced by the velocity. *)
Definition advanced (bj : BackEndProjectile.t) (p : Projectile.t) : Projectile.t :=
  Projectile.with_pos (Projectile.x p + (BackEndProjectile.velocity bj).1)%Q
                      (Projectile.y p + (BackEndProjectile.velocity bj).2)%Q p.

(** Test payloads. *)
Definition bj_of (owner : string) : BackEndProjectile.t :=
  BackEndProjectile.mk 10 20 owner (1, 2)%Q.

Definition owner_player : Player.t :=
  Player.mk 0 0 10 "red" "owner" None.

(** ** Lemmas *)

Lemma upsert_projectile_get players projs k bj j :
  js_get j (upsert_projectile players projs (k, bj)) =
    if decide (k = j) then
      Some (match js_get j projs with
            | Some p => advanced bj p
            | None => new_projectile players bj
            end)
    else js_get j projs.
Proof.
  simpl. unfold js_has. destruct (js_get k projs) eqn:Hk; simpl.
  - rewrite js_get_modify. case_decide; subst; [by rewrite Hk|done].
  - rewrite js_get_set. case_decide; subst; [by rewrite Hk|done].
Qed.

Lemma upsert_loop_other players bjs projs j :
  j ∉ js_keys bjs ->
  js_get j (fold_left (upsert_projectile players) bjs projs) = js_get j projs.
Proof.
  revert projs; induction bjs as [|[k bj] bjs IH]; intros projs Hj; cbn [fold_left]; [done|].
  unfold js_keys in Hj. simpl in Hj. rewrite IH by set_solver.
  rewrite upsert_projectile_get. case_decide; [set_solver|done].
Qed.

(** After the first loop: every snapshot id holds its advanced or new
    projectile, every other id is untouched. *)
Lemma upsert_loop_get players bjs projs j :
  js_wf bjs ->
  js_get j (fold_left (upsert_projectile players) bjs projs) =
    match js_get j bjs with
    | Some bj => Some (match js_get j projs with
                       | Some p => advanced bj p
                       | None => new_projectile players bj
                       end)
    | None => js_get j projs
    end.
Proof.
  revert projs; induction bjs as [|[k bj] bjs IH]; intros projs Hwf; cbn [fold_left js_get]; [done|].
  unfold js_wf, js_keys in Hwf. simpl in Hwf. apply NoDup_cons in Hwf as [Hk Hwf].
  case_decide as Hjk; subst.
  - rewrite upsert_loop_other by done. by rewrite upsert_projectile_get, decide_True.
  - rewrite IH by done. rewrite !upsert_projectile_get, decide_False by congruence.
    done.
Qed.

Lemma drop_loop_get {B : Type} (bjs : jsobj B) ks projs j :
  js_get j (fold_left (drop_missing bjs) ks projs) =
    if decide (j ∈ ks /\ js_get j bjs = None) then None else js_get j projs.
Proof.
  revert projs; induction ks as [|k ks IH]; intros projs; simpl.
  - done.
  - rewrite IH. unfold drop_missing, js_has.
    destruct (js_get k bjs) eqn:Hk; [|rewrite js_get_delete];
      repeat case_decide; subst; set_solver.
Qed.

Lemma updateProjectiles_get players bjs projs j :
  js_wf bjs ->
  js_get j (updateProjectiles players bjs projs) =
    match js_get j bjs with
    | Some bj => Some (match js_get j projs with
                       | Some p => advanced bj p
                       | None => new_projectile players bj
                       end)
    | None => None
    end.
Proof.
  intros Hwf. unfold updateProjectiles. rewrite drop_loop_get, upsert_loop_get by done.
  destruct (js_get j bjs) eqn:Hj.
  - rewrite decide_False; [done|]. intros [_ ?]; congruence.
  - case_decide as Hd; [done|]. destruct (js_get j projs) eqn:Hp; [|done].
    exfalso. apply Hd. split; [|done]. apply js_keys_spec.
    rewrite upsert_loop_get, Hj, Hp by done. by eexists.
Qed.

Lemma upsert_loop_wf players bjs p :
  js_wf p -> js_wf (fold_left (upsert_projectile players) bjs p).
Proof.
  revert p; induction bjs as [|[k bj] bjs IH]; intros p Hp; [done|].
  cbn [fold_left]. apply IH. unfold upsert_projectile.
  destruct (js_has k p); simpl; auto with client.
Qed.

Lemma drop_loop_wf {B : Type} (bjs : jsobj B) ks p :
  js_wf p -> js_wf (fold_left (drop_missing bjs) ks p).
Proof.
  revert p; induction ks as [|k ks IH]; intros p Hp; [done|].
  cbn [fold_left]. apply IH. unfold drop_missing. destruct (js_has k bjs); auto with client.
Qed.

Lemma updateProjectiles_wf players bjs projs :
  js_wf projs -> js_wf (updateProjectiles players bjs projs).
Proof. intros Hwf. unfold updateProjectiles. by apply drop_loop_wf, upsert_loop_wf. Qed.

(** The second loop deletes at most the key it visits. *)
Lemma drop_missing_deletes {B : Type} (bjs : jsobj B) :
  deletes_at_most_visited js_keys (fun k p => Normal (drop_missing bjs p k)).
Proof.
  intros k p p' Heq. injection Heq as <-. unfold drop_missing.
  destruct (js_has k bjs); first [by left | right; apply js_keys_delete].
Qed.

(** ** Properties *)

(** C15: after the handler the store holds exactly the snapshot's
    projectile ids, and keeps no duplicate id (scenario C: an id the
    snapshot omits is removed). *)
Theorem updateProjectiles_lifecycle players bjs projs :
  js_wf projs -> js_wf bjs ->
  js_wf (updateProjectiles players bjs projs) /\
  forall j, j ∈ js_keys (updateProjectiles players bjs projs) <-> j ∈ js_keys bjs.
Proof.
  intros Hwf Hb. split; [by apply updateProjectiles_wf|]. intros j.
  rewrite !js_keys_spec, updateProjectiles_get by done.
  destruct (js_get j bjs); split; intros [? ?]; by eauto.
Qed.

(** C16: a projectile the store already holds is advanced by the
    velocity of the snapshot, its other fields (color included) kept;
    a new one is built from the payload with its owner's color. *)
Theorem updateProjectiles_values players bjs projs j bj :
  js_wf bjs -> js_get j bjs = Some bj ->
  js_get j (updateProjectiles players bjs projs) =
    Some (match js_get j projs with
          | Some p => Projectile.with_pos (Projectile.x p + (BackEndProjectile.velocity bj).1)%Q
                                          (Projectile.y p + (BackEndProjectile.velocity bj).2)%Q p
          | None => new_projectile players bj
          end).
Proof. intros Hwf Hj. by rewrite updateProjectiles_get, Hj. Qed.

(** On a store without duplicate ids, enumerating the store with JS
    [for...in] semantics while deleting (line 50) gives the same store
    as the loop over the keys it had when the loop started:
    [updateProjectiles] is the JS enumeration. *)
Theorem updateProjectiles_enumeration players bjs projs :
  js_wf projs ->
  updateProjectiles_js players bjs projs = Some (updateProjectiles players bjs projs).
Proof.
  intros Hwf. unfold updateProjectiles_js, updateProjectiles.
  rewrite for_in_for_each; [|apply drop_missing_deletes|apply upsert_loop_wf, Hwf].
  by rewrite for_each_pure.
Qed.

Lemma updateProjectiles_lifecycle_witness :
  js_wf ([] : jsobj Projectile.t) /\ js_wf [("p1", bj_of "o")] /\
  (js_wf (updateProjectiles [] [("p1", bj_of "o")] []) /\
   forall j, j ∈ js_keys (updateProjectiles [] [("p1", bj_of "o")] []) <->
             j ∈ js_keys [("p1", bj_of "o")]).
Proof.
  assert (H1 : js_wf ([] : jsobj Projectile.t)) by constructor.
  assert (H2 : js_wf [("p1", bj_of "o")]) by (repeat constructor; set_solver).
  split_and!; [exact H1|exact H2|..]; apply updateProjectiles_lifecycle; assumption.
Defined.

Lemma updateProjectiles_values_witness :
  js_wf [("p1", bj_of "o")] /\ js_get "p1" [("p1", bj_of "o")] = Some (bj_of "o") /\
  js_get "p1" (updateProjectiles [] [("p1", bj_of "o")] [("p1", new_projectile [] (bj_of "o"))]) =
    Some (match js_get "p1" [("p1", new_projectile [] (bj_of "o"))] with
          | Some p => Projectile.with_pos (Projectile.x p + (BackEndProjectile.velocity (bj_of "o")).1)%Q
                                          (Projectile.y p + (BackEndProjectile.velocity (bj_of "o")).2)%Q p
          | None => new_projectile [] (bj_of "o")
          end).
Proof.
  assert (H2 : js_wf [("p1", bj_of "o")]) by (repeat constructor; set_solver).
  split_and!; [exact H2|reflexivity|].
  apply (updateProjectiles_values [] [("p1", bj_of "o")] _ "p1" (bj_of "o") H2). reflexivity.
Defined.

End UpdateProjectiles.
