(* ===== verification/RawPayload.v ===== *)
(** * [updateProjectiles] on payloads as JSON delivers them (lines 30-55)

    The server's snapshot is untyped JSON: an entry may lack its
    [velocity].  The handler never checks.  Creating a projectile from
    such an entry stores [velocity: undefined] (lines 36-42).  Advancing
    a known one reads [backEndProjectiles[id].velocity.x] (line 45): a
    property read on [undefined], which throws a [TypeError].  The entries
    already visited stay applied, and the deletion loop (lines 50-54)
    never runs.

    [raw] is a payload entry whose [velocity] may be missing;
    [updateProjectiles_raw] is the handler on such entries, in the
    outcome monad.  [updateProjectiles_raw_wellformed] shows that on
    well-formed entries it is the model [updateProjectiles].
    [updateProjectiles_malformed] is the error path. *)

From S2P Require Import Prelude JsObject Entities Projectiles.
Import UpdateProjectiles.

Module RawProjectiles.

Local Open Scope js_scope.

(** [backEndProjectiles[id]] as received. *)
Record raw : Type := mk_raw {
  raw_x : Q;
  raw_y : Q;
  raw_playerId : string;
  raw_velocity : option (Q * Q)
}.

(** Lines 36-42 on a raw entry: the constructor stores whatever
    [velocity] holds. *)
Definition new_projectile_raw (frontEndPlayers : jsobj Player.t) (rj : raw) : Projectile.t :=
  Projectile.mk (raw_x rj) (raw_y rj) 5
    (Player.color <$> js_get (raw_playerId rj) frontEndPlayers) (raw_velocity rj).

(** Lines 31-47 for one raw entry; line 45 throws on a missing velocity. *)
Definition upsert_projectile_raw (frontEndPlayers : jsobj Player.t) (entry : string * raw)
    (projs : jsobj Projectile.t) : outcome (jsobj Projectile.t) :=
  let '(id, rj) := entry in
  if negb (js_has id projs) then Normal (js_set id (new_projectile_raw frontEndPlayers rj) projs)
  else
    match raw_velocity rj with
    | None => Thrown (TypeError "backEndProjectiles[id].velocity is undefined") projs
    | Some v =>
        Normal (js_modify id (fun p => Projectile.with_pos (Projectile.x p + v.1)%Q
                                                            (Projectile.y p + v.2)%Q p) projs)
    end.

(** Lines 30-55 on raw entries. *)
Definition updateProjectiles_raw (frontEndPlayers : jsobj Player.t) (backEndProjectiles : jsobj raw)
    (projs : jsobj Projectile.t) : outcome (jsobj Projectile.t) :=
  p1 <- for_each (upsert_projectile_raw frontEndPlayers) backEndProjectiles projs ;;
  Normal (fold_left (drop_missing backEndProjectiles) (js_keys p1) p1).

(** A well-formed entry, and the typed payload it stands for. *)
Definition wellformed (e : string * raw) : Prop := is_Some (raw_velocity e.2).

Definition decode (rj : raw) : BackEndProjectile.t :=
  BackEndProjectile.mk (raw_x rj) (raw_y rj) (raw_playerId rj) (default (0, 0)%Q (raw_velocity rj)).

Definition decode_entries (rjs : jsobj raw) : jsobj BackEndProjectile.t :=
  map (fun '(id, rj) => (id, decode rj)) rjs.

(** ** Lemmas *)

Lemma upsert_raw_wellformed players e projs :
  wellformed e ->
  upsert_projectile_raw players e projs =
    Normal (upsert_projectile players projs (e.1, decode e.2)).
Proof.
  destruct e as [id [x y o [v|]]]; intros [w Hw]; simpl in *; [|done].
  injection Hw as <-. by destruct (js_has id projs).
Qed.

Lemma upsert_raw_loop players pre projs :
  Forall wellformed pre ->
  for_each (upsert_projectile_raw players) pre projs =
    Normal (fold_left (upsert_projectile players) (decode_entries pre) projs).
Proof.
  intros Hwf. revert projs. induction Hwf as [|[id rj] pre Hw Hwf IH]; intros projs; [done|].
  cbn [for_each fold_left decode_entries map]. rewrite upsert_raw_wellformed by done.
  simpl. apply IH.
Qed.

Lemma js_has_decode k rjs : js_has k (decode_entries rjs) = js_has k rjs.
Proof.
  induction rjs as [|[id rj] rjs IH]; [done|]. unfold js_has in *. simpl.
  case_decide; [done|apply IH].
Qed.

Lemma drop_missing_decode rjs ks p :
  fold_left (drop_missing (decode_entries rjs)) ks p = fold_left (drop_missing rjs) ks p.
Proof.
  revert p; induction ks as [|k ks IH]; intros p; [done|]. simpl.
  unfold drop_missing at 2 4. by rewrite js_has_decode, IH.
Qed.

(** On well-formed entries the raw handler is the model. *)
Lemma updateProjectiles_raw_wellformed players rjs projs :
  Forall wellformed rjs ->
  updateProjectiles_raw players rjs projs = Normal (updateProjectiles players (decode_entries rjs) projs).
Proof.
  intros Hwf. unfold updateProjectiles_raw, updateProjectiles.
  rewrite upsert_raw_loop by done. simpl. by rewrite drop_missing_decode.
Qed.

(** The store keeps unique ids whether the handler returns or throws. *)
Lemma updateProjectiles_raw_wf players rjs projs :
  js_wf projs -> js_wf (final_state (updateProjectiles_raw players rjs projs)).
Proof.
  intros Hwf. unfold updateProjectiles_raw. apply (obind_final_inv js_wf).
  - apply (for_each_final_inv js_wf); [|done]. intros [id rj] p Hp. unfold upsert_projectile_raw.
    destruct (js_has id p); simpl; [destruct (raw_velocity rj)|]; simpl; auto with client.
  - intros p Hp. by apply drop_loop_wf.
Qed.

(** ** Properties *)

(** C26: on payloads whose every entry has its [velocity], the
    handler on JSON entries returns normally with the typed model's
    result: [updateProjectiles] refines the handler on the well-formed
    payloads, and only a missing [velocity] makes them differ. *)
Theorem updateProjectiles_raw_refines players rjs projs :
  Forall wellformed rjs ->
  updateProjectiles_raw players rjs projs = Normal (updateProjectiles players (decode_entries rjs) projs).
Proof. apply updateProjectiles_raw_wellformed. Qed.

(** C25: a snapshot whose entry for a projectile already known
    locally lacks [velocity] makes the handler throw at that entry.  The
    projectile store is left as the entries before it made it, and the
    deletion loop never runs, so vanished projectiles stay on screen.
    The message is not dropped as a whole. *)
Theorem updateProjectiles_malformed players pre id rj post projs :
  Forall wellformed pre ->
  js_has id (fold_left (upsert_projectile players) (decode_entries pre) projs) = true ->
  raw_velocity rj = None ->
  exists e, updateProjectiles_raw players (pre ++ (id, rj) :: post) projs =
    Thrown e (fold_left (upsert_projectile players) (decode_entries pre) projs).
Proof.
  intros Hwf Hh Hv. unfold updateProjectiles_raw.
  rewrite for_each_app, upsert_raw_loop by done. cbn [obind for_each].
  unfold upsert_projectile_raw. rewrite Hh, Hv. simpl. by eexists.
Qed.

Lemma updateProjectiles_malformed_witness :
  Forall wellformed [("p2", mk_raw 0 0 "o" (Some (1, 1)%Q))] /\
  js_has "p1" (fold_left (upsert_projectile []) (decode_entries [("p2", mk_raw 0 0 "o" (Some (1, 1)%Q))])
                 [("p1", new_projectile [] (bj_of "o"))]) = true /\
  raw_velocity (mk_raw 0 0 "o" None) = None /\
  exists e, updateProjectiles_raw [] ([("p2", mk_raw 0 0 "o" (Some (1, 1)%Q))] ++
                                     [("p1", mk_raw 0 0 "o" None)])
              [("p1", new_projectile [] (bj_of "o"))] =
    Thrown e (fold_left (upsert_projectile []) (decode_entries [("p2", mk_raw 0 0 "o" (Some (1, 1)%Q))])
                [("p1", new_projectile [] (bj_of "o"))]).
Proof.
  assert (H1 : Forall wellformed [("p2", mk_raw 0 0 "o" (Some (1, 1)%Q))]).
  { repeat constructor. by eexists. }
  split_and!; [exact H1|reflexivity|reflexivity|].
  apply (updateProjectiles_malformed [] _ "p1" (mk_raw 0 0 "o" None) []); [exact H1|reflexivity|reflexivity].
Defined.

Lemma updateProjectiles_raw_refines_witness :
  Forall wellformed [("p2", mk_raw 0 0 "o" (Some (1, 1)%Q))] /\
  updateProjectiles_raw [] [("p2", mk_raw 0 0 "o" (Some (1, 1)%Q))] [] =
    Normal (updateProjectiles [] (decode_entries [("p2", mk_raw 0 0 "o" (Some (1, 1)%Q))]) []).
Proof.
  assert (H : Forall wellformed [("p2", mk_raw 0 0 "o" (Some (1, 1)%Q))]).
  { repeat constructor. by eexists. }
  split; [exact H|]. exact (updateProjectiles_raw_refines [] _ [] H).
Defined.

End RawProjectiles.
