(* ===== verification/Interpolation.v ===== *)
(** * One frame of the render loop (frontend.js lines 147-172)

    [animate] runs once per display frame: it clears the canvas, moves
    every player that has a [target] half of the remaining way towards
    it ([x += (target.x - x) * 0.5], same for [y]) and draws it, then
    draws every projectile where it is (projectiles have no target).
    [frame] returns the new player store and the list of draw calls the
    rendering collaborator receives, in order.

    Coordinates are rationals, compared with [Qeq] ([==]): the halving
    step respects that equivalence ([lerp_half_proper]).  JS computes
    the step in IEEE binary64, where it is not an exact halving:
    [lerp_half_b64] is the same step in Stdlib's [SpecFloat] binary64
    (53-bit significand, round to nearest even), and
    [lerp_half_b64_exact] shows that from [0] towards [1] the position
    equals the target after 54 frames, and that one unit in the last
    place away from [1] it never moves.  No convergence theorem is
    stated on the rational step for that reason; the store and the draw
    calls of a frame are what the client model uses. *)

From S2P Require Import Prelude JsObject Entities.
From Stdlib Require Import Morphisms Floats.SpecFloat.

Module Render.

Local Open Scope Q_scope.

(** [p += (t - p) * 0.5] *)
Definition lerp_half (p t : Q) : Q := p + (t - p) * (1 # 2).

(** Lines 157-160 in binary64: [x += (target.x - x) * 0.5]. *)
Definition b64_prec : Z := 53.
Definition b64_emax : Z := 1024.
Definition b64_half : spec_float := S754_finite false 4503599627370496 (-53).
Definition lerp_half_b64 (p t : spec_float) : spec_float :=
  SFadd b64_prec b64_emax p (SFmul b64_prec b64_emax (SFsub b64_prec b64_emax t p) b64_half).

(** Lines 156-161 for one player. *)
Definition interpolate (pl : Player.t) : Player.t :=
  match Player.target pl with
  | Some (tx, ty) => Player.with_pos (lerp_half (Player.x pl) tx) (lerp_half (Player.y pl) ty) pl
  | None => pl
  end.

(** A call [c.arc(...)] of an entity's [draw()]. *)
Record draw_call : Type := mk_draw {
  draw_at : Q * Q;
  draw_size : Q;
  draw_fill : option string
}.

Definition draw {E : Type} `{Drawable E} (e : E) : draw_call :=
  mk_draw (draw_pos e) (draw_radius e) (draw_color e).

(** Lines 152-164: move then draw each player, in key order. *)
Definition animate_players (players : jsobj Player.t) : jsobj Player.t :=
  map (fun '(id, pl) => (id, interpolate pl)) players.

(** Lines 148-170: one frame. *)
Definition frame (players : jsobj Player.t) (projs : jsobj Projectile.t)
    : jsobj Player.t * list draw_call :=
  let players' := animate_players players in
  (players', map (fun kv => draw kv.2) players' ++ map (fun kv => draw kv.2) projs).

(** ** Lemmas *)

#[export] Instance lerp_half_proper : Proper (Qeq ==> Qeq ==> Qeq) lerp_half.
Proof. intros p p' Hp t t' Ht. unfold lerp_half. rewrite Hp, Ht. reflexivity. Qed.

Lemma animate_players_keys players : js_keys (animate_players players) = js_keys players.
Proof. unfold js_keys, animate_players. rewrite map_map. apply map_ext. by intros []. Qed.

(** In binary64 the step reaches the target: from [0] towards [1] the
    position is [1 - 2^-53] after 53 frames and exactly [1] after 54;
    and at [1], one unit in the last place below the target [1 + 2^-52],
    the half step rounds back to [1]. *)
Lemma lerp_half_b64_exact :
  let one := S754_finite false 4503599627370496 (-52) in
  Nat.iter 53 (fun x => lerp_half_b64 x one) (S754_zero false) <> one /\
  Nat.iter 54 (fun x => lerp_half_b64 x one) (S754_zero false) = one /\
  lerp_half_b64 one (S754_finite false 4503599627370497 (-52)) = one.
Proof. vm_compute. split; [discriminate|split; reflexivity]. Qed.

End Render.
