(* ===== verification/Page.v ===== *)
(** * Page setup, the canvas operations of a frame and the frame loop (lines 1-23, 147-172)

    Lines 12-19 read [window.devicePixelRatio] with the fallback [|| 1],
    size the canvas bitmap to [1024 × 576] times that ratio, and scale
    the drawing context by the same ratio.  The game draws in the
    logical [1024 × 576] space.  [animate] (line 150) begins each frame
    with [c.clearRect(0, 0, canvas.width, canvas.height)], in context
    units, so the ratio is applied twice.

    [canvas] holds the bitmap size and the context's scale; [setup] is
    lines 12-19; [animate_ops] is one frame as the list of canvas
    operations it issues, the clear first.  [ClearRect] and [DrawArc]
    are given in context units; [bitmap_covered] says where they land.

    The ratio is a rational: the falsy values [|| 1] replaces are
    [undefined] ([None]) and [0]; [NaN] has no rational counterpart and
    is not modelled.  [socket] and [scoreEl] (lines 6-9) carry no state
    the client reads; the centre [x], [y] of lines 22-23 is [center],
    which nothing reads.

    [frame_loop] is the render loop's scheduling: [animationId] (line
    147), written by every [animate] (line 149) and never read, and the
    browser's queued callback.  [init_loop] is the first call of line
    172, [fire_frame] one display refresh.  Nothing in the file calls
    [cancelAnimationFrame], so the loop, once armed, stays armed
    ([fire_frame_armed]). *)

From S2P Require Import Prelude JsObject Entities Interpolation.
From Stdlib Require Import Qround.
Import Render.

Module Page.

Local Open Scope Q_scope.

(** The canvas: bitmap size (lines 15-16) and context scale (line 19).
    [canvas.width] and [canvas.height] are [unsigned long] attributes. *)
Record canvas : Type := mk_canvas {
  width : Z;
  height : Z;
  ctx_scale : Q
}.

(** Assigning a number to an [unsigned long] attribute (WebIDL): the
    integer part, modulo [2^32]. *)
Definition webidl_unsigned_long (x : Q) : Z :=
  let i := if Qle_bool 0 x then Qfloor x else (- Qfloor (- x))%Z in
  (i mod 2 ^ 32)%Z.

(** Line 12: [window.devicePixelRatio || 1]. *)
Definition devicePixelRatio_of (w : option Q) : Q :=
  match w with
  | Some r => if Qeq_bool r 0 then 1 else r
  | None => 1
  end.

(** Lines 12-19. *)
Definition setup (w : option Q) : canvas :=
  let devicePixelRatio := devicePixelRatio_of w in
  mk_canvas (webidl_unsigned_long (1024 * devicePixelRatio))
    (webidl_unsigned_long (576 * devicePixelRatio)) devicePixelRatio.

(** Lines 22-23: the centre in bitmap pixels; nothing reads it. *)
Definition center (cv : canvas) : Q * Q := (inject_Z (width cv) / 2, inject_Z (height cv) / 2).

(** A canvas call of [animate], in context units. *)
Inductive canvas_op : Type :=
| ClearRect (x y w h : Q)
| DrawArc (d : draw_call).

(** Lines 148-170: the clear, then the frame's draw calls. *)
Definition animate_ops (cv : canvas) (players : jsobj Player.t) (projs : jsobj Projectile.t)
    : jsobj Player.t * list canvas_op :=
  let '(players', draws) := frame players projs in
  (players', ClearRect 0 0 (inject_Z (width cv)) (inject_Z (height cv)) :: map DrawArc draws).

(** The render loop's scheduling state: [animationId] (line 147,
    [undefined] until the first call), the browser's last issued
    [requestAnimationFrame] handle, and the handle of the queued
    [animate] callback, if any.  Handles are issued from 1 upwards. *)
Record frame_loop : Type := mk_loop {
  animationId : option Z;
  raf_counter : Z;
  raf_pending : option Z
}.

(** Line 149: [animationId = requestAnimationFrame(animate)]. *)
Definition request_frame (l : frame_loop) : frame_loop :=
  let h := (raf_counter l + 1)%Z in mk_loop (Some h) h (Some h).

(** Line 172: the script's own first call [animate()], which requests
    the next frame (its clear and draws act on empty stores). *)
Definition init_loop : frame_loop := request_frame (mk_loop None 0 None).

(** The browser fires the queued callback, if any: it is dequeued and
    [animate] runs, re-requesting at once.  Nothing in the file calls
    [cancelAnimationFrame]. *)
Definition fire_frame (l : frame_loop) : option frame_loop :=
  match raf_pending l with
  | Some _ => Some (request_frame (mk_loop (animationId l) (raf_counter l) None))
  | None => None
  end.

(** The loop is armed: the queued callback is the one [animationId] holds. *)
Definition loop_armed (l : frame_loop) : Prop :=
  raf_pending l = animationId l /\ exists h, animationId l = Some h /\ (0 < h <= raf_counter l)%Z.

(** A rectangle in context units covers the whole bitmap. *)
Definition bitmap_covered (cv : canvas) (x y w h : Q) : Prop :=
  ctx_scale cv * x <= 0 /\ ctx_scale cv * y <= 0 /\
  inject_Z (width cv) <= ctx_scale cv * (x + w) /\ inject_Z (height cv) <= ctx_scale cv * (y + h).

(** ** Lemmas *)

Lemma scale_covers d k : 0 < d -> 0 <= k -> (k <= d * (0 + k) <-> 1 <= d \/ k == 0).
Proof.
  intros Hd Hk. rewrite Qplus_0_l. destruct (Qeq_dec k 0) as [Hz|Hz].
  - split; [by right|]. intros _. rewrite Hz. lra.
  - assert (Hk' : 0 < k) by (apply Qle_lteq in Hk as [?|?]; [done|by symmetry in H]).
    split; [|intros [H|H]; [|done]].
    + intros H. left. apply (Qmult_le_r _ _ k); [done|]. lra.
    + rewrite <- (Qmult_1_l k) at 1. rewrite Qmult_comm, (Qmult_comm d). by apply Qmult_le_l.
Qed.

Lemma unsigned_long_nonneg x : 0 <= inject_Z (webidl_unsigned_long x).
Proof.
  unfold webidl_unsigned_long. change 0 with (inject_Z 0). rewrite <- Zle_Qle.
  apply Z.mod_pos_bound. lia.
Qed.

Lemma unsigned_long_zero x : inject_Z (webidl_unsigned_long x) == 0 <-> webidl_unsigned_long x = 0%Z.
Proof. split; [intros H; by apply (inject_Z_injective _ 0%Z)|intros ->; reflexivity]. Qed.

Lemma div_bounds a k d : 0 < d -> a * d - 1 < k <= a * d -> a - 1 / d < k / d <= a.
Proof.
  intros Hd [H1 H2]. split.
  - apply Qlt_shift_div_l; [done|].
    assert (E : (a - 1 / d) * d == a * d - 1) by (field; lra). by rewrite E.
  - by apply Qle_shift_div_r.
Qed.

(** In range, the conversion truncates: less than one unit below. *)
Lemma unsigned_long_bounds x : 0 <= x -> x < inject_Z (2 ^ 32) ->
  x - 1 < inject_Z (webidl_unsigned_long x) <= x.
Proof.
  intros H0 H1. unfold webidl_unsigned_long.
  replace (Qle_bool 0 x) with true by (symmetry; by apply Qle_bool_iff).
  pose proof (Qfloor_le x) as Hle. pose proof (Qlt_floor x) as Hlt.
  assert (Hf : (0 <= Qfloor x < 2 ^ 32)%Z).
  { split.
    - change 0%Z with (Qfloor 0). by apply Qfloor_resp_le.
    - rewrite Zlt_Qlt. eapply Qle_lt_trans; [exact Hle|exact H1]. }
  rewrite Z.mod_small by done. split; [|done]. rewrite inject_Z_plus in Hlt. change (inject_Z 1) with 1 in Hlt. lra.
Qed.

Lemma animate_ops_players cv players projs :
  (animate_ops cv players projs).1 = animate_players players.
Proof. reflexivity. Qed.

Lemma animate_ops_first cv players projs :
  exists ops, (animate_ops cv players projs).2 =
    ClearRect 0 0 (inject_Z (width cv)) (inject_Z (height cv)) :: ops.
Proof. unfold animate_ops. destruct (frame players projs). by eexists. Qed.

Lemma request_frame_armed l : (0 <= raf_counter l)%Z -> loop_armed (request_frame l).
Proof. intros H. split; [done|]. eexists. split; [done|]. simpl. lia. Qed.

Lemma fire_frame_armed l l' : loop_armed l -> fire_frame l = Some l' -> loop_armed l'.
Proof.
  intros (Hp & h & Hh & Hb) Hf. unfold fire_frame in Hf. rewrite Hp, Hh in Hf.
  injection Hf as <-. apply request_frame_armed. simpl. lia.
Qed.

Lemma fire_frame_armed_some l : loop_armed l -> is_Some (fire_frame l).
Proof. intros (Hp & h & Hh & _). unfold fire_frame. rewrite Hp, Hh. by eexists. Qed.

(** ** Properties *)

(** C21: every frame begins by clearing [canvas.width × canvas.height]
    in context units; that rectangle covers the whole bitmap exactly
    when the pixel ratio is at least 1 or the truncated bitmap is empty.
    Below 1 (a zoomed-out page) the right and bottom strips are never
    cleared and keep the pixels of earlier frames. *)
Theorem animate_clear_covers w players projs :
  0 < devicePixelRatio_of w ->
  exists ops, (animate_ops (setup w) players projs).2 =
      ClearRect 0 0 (inject_Z (width (setup w))) (inject_Z (height (setup w))) :: ops /\
    (bitmap_covered (setup w) 0 0 (inject_Z (width (setup w))) (inject_Z (height (setup w))) <->
     1 <= devicePixelRatio_of w \/ (width (setup w) = 0 /\ height (setup w) = 0)%Z).
Proof.
  intros Hd. destruct (animate_ops_first (setup w) players projs) as [ops Hops].
  exists ops. split; [exact Hops|]. unfold bitmap_covered, setup. cbn [ctx_scale width height].
  rewrite !scale_covers by (done || apply unsigned_long_nonneg).
  rewrite !unsigned_long_zero, !Qmult_0_r.
  split; [intros (_ & _ & H1 & H2); tauto|intros H; split_and!; [done|done|tauto|tauto]].
Qed.

(** C22: through the context scaled by the ratio, the truncated canvas
    is the logical [1024 × 576] less than one device pixel short, for
    every positive ratio whose bitmap fits an [unsigned long]. *)
Theorem setup_logical_size w :
  0 < devicePixelRatio_of w -> 1024 * devicePixelRatio_of w < inject_Z (2 ^ 32) ->
  1024 - 1 / ctx_scale (setup w) < inject_Z (width (setup w)) / ctx_scale (setup w) <= 1024 /\
  576 - 1 / ctx_scale (setup w) < inject_Z (height (setup w)) / ctx_scale (setup w) <= 576.
Proof.
  cbn [setup width height ctx_scale]. set (d := devicePixelRatio_of w). intros Hd Hr.
  split; apply div_bounds; try done; apply unsigned_long_bounds; lra.
Qed.

Lemma animate_clear_covers_witness :
  0 < devicePixelRatio_of (Some 2) /\
  exists ops, (animate_ops (setup (Some 2)) [] []).2 =
      ClearRect 0 0 (inject_Z (width (setup (Some 2)))) (inject_Z (height (setup (Some 2)))) :: ops /\
    (bitmap_covered (setup (Some 2)) 0 0 (inject_Z (width (setup (Some 2))))
       (inject_Z (height (setup (Some 2)))) <->
     1 <= devicePixelRatio_of (Some 2) \/ (width (setup (Some 2)) = 0%Z /\ height (setup (Some 2)) = 0%Z)).
Proof.
  assert (H : 0 < devicePixelRatio_of (Some 2)) by reflexivity.
  split; [exact H|]. apply animate_clear_covers. exact H.
Defined.

(** At ratio 1.1 the bitmap is [1126 × 633]. *)
Lemma setup_logical_size_witness :
  0 < devicePixelRatio_of (Some (11 # 10)) /\ 1024 * devicePixelRatio_of (Some (11 # 10)) < inject_Z (2 ^ 32) /\
  (1024 - 1 / ctx_scale (setup (Some (11 # 10))) <
     inject_Z (width (setup (Some (11 # 10)))) / ctx_scale (setup (Some (11 # 10))) <= 1024 /\
   576 - 1 / ctx_scale (setup (Some (11 # 10))) <
     inject_Z (height (setup (Some (11 # 10)))) / ctx_scale (setup (Some (11 # 10))) <= 576).
Proof.
  assert (H1 : 0 < devicePixelRatio_of (Some (11 # 10))) by reflexivity.
  assert (H2 : 1024 * devicePixelRatio_of (Some (11 # 10)) < inject_Z (2 ^ 32)) by reflexivity.
  split; [exact H1|split; [exact H2|]]. exact (setup_logical_size _ H1 H2).
Defined.

End Page.
