(* ===== verification/Client.v ===== *)
(** * The whole client as a state machine over its events

    The client's state is spread over module-level variables of
    frontend.js: the two stores (lines 26-27), the DOM rows and form,
    [keys] (175), [playerInputs] (194), [sequenceNumber] (197) and the
    socket.  Three independent sources run callbacks on it, one at a
    time: socket messages ([updatePlayers], [updateProjectiles]), the
    display refresh ([animate]), the 15 ms interval, and the DOM events
    (keyboard, form submit).  [client_step] runs one callback on a
    [client]; an uncaught exception ends that callback only, so the
    state it leaves behind is the next state either way ([reachable]).

    Projectile snapshots arrive as JSON ([RawPayload.raw]: a [velocity]
    may be missing, and the handler then throws midway).  Player
    snapshots are those whose ids and usernames carry no markup
    ([event_markup_free]): on them the plain rows of [Scoreboard] are
    the DOM's (C23); a username with markup is parsed as HTML and
    forges or nests rows (C24), which the row model does not follow, so
    [reachable] takes only those player snapshots.

    The section variables are the socket id the server assigned and the
    canvas [Page.setup] built; both are fixed for a connection. *)

From S2P Require Import Prelude JsObject Entities Reconcile InputSequencer Scoreboard Markup Players Projectiles RawPayload Interpolation Page.
Import Prediction Inputs Labels UpdatePlayers UpdateProjectiles RawProjectiles Render Page.

Module Client.

Record client : Type := mk_client {
players : jsobj Player.t;
labels : list row;
form_shown : bool;
projectiles : jsobj Projectile.t;
key_flags : key_state;
inputs : list input;
counter : Z;
sent : list message;
loop : frame_loop
}.

Inductive event : Type :=
| UpdatePlayersMsg (backEndPlayers : jsobj BackEndPlayer.t)
| UpdateProjectilesMsg (backEndProjectiles : jsobj raw)
| AnimationFrame
| IntervalTick
| KeyDownEvent (code : string)
| KeyUpEvent (code : string)
| SubmitUsername (username : string).

(** The page when the script has run: nothing known, the form shown,
    and the first frame requested by the call [animate()] of line 172. *)
Definition init : client := mk_client [] [] true [] no_keys [] 0 [] init_loop.

Definition to_view (c : client) : view :=
mk_view (players c) (labels c) (form_shown c) (inputs c).

Definition with_view (v : view) (c : client) : client :=
mk_client (frontEndPlayers v) (playerLabels v) (form_visible v) (projectiles c)
  (key_flags c) (UpdatePlayers.playerInputs v) (counter c) (sent c) (loop c).

Definition to_seq (c : client) : sequencer :=
mk_seq (key_flags c) (inputs c) (counter c) (sent c).

Definition with_seq (q : sequencer) (c : client) : client :=
mk_client (players c) (labels c) (form_shown c) (projectiles c)
  (keys q) (Inputs.playerInputs q) (seq_counter q) (outbox q) (loop c).

Definition with_projectiles (p : jsobj Projectile.t) (c : client) : client :=
mk_client (players c) (labels c) (form_shown c) p (key_flags c) (inputs c) (counter c) (sent c) (loop c).

(** The events the row model is exact on: player snapshots whose ids
  and usernames carry no markup. *)
Definition event_markup_free (e : event) : bool :=
match e with
| UpdatePlayersMsg bps => Markup.snapshot_markup_free bps
| _ => true
end.

(** Projectile snapshots whose every entry has its [velocity]. *)
Definition event_wellformed (e : event) : Prop :=
match e with
| UpdateProjectilesMsg rjs => Forall wellformed rjs
| _ => True
end.

(** Every event but a player snapshot. *)
Definition no_snapshot (e : event) : bool :=
match e with
| UpdatePlayersMsg _ => false
| _ => true
end.

(** A trace on the page of the player "me": join, appear in a snapshot,
  hold W during one tick, vanish from the next snapshot, let one frame
  render, release W. *)
Definition stuck_trace : list event :=
[SubmitUsername "u";
 UpdatePlayersMsg [("me", BackEndPlayer.mk 100 100 "red" "u" 0 0)];
 KeyDownEvent "KeyW";
 IntervalTick;
 UpdatePlayersMsg [];
 AnimationFrame;
 KeyUpEvent "KeyW"].

(** The page of a display with pixel ratio 1. *)
Definition page1 : canvas := setup (Some 1).

Section Step.
Variable sid : string.
Variable cv : canvas.

(** One callback. *)
Definition client_step (c : client) (e : event) : outcome client :=
match e with
| UpdatePlayersMsg bps => omap (fun v => with_view v c) (updatePlayers sid bps (to_view c))
| UpdateProjectilesMsg rjs =>
  omap (fun p => with_projectiles p c) (updateProjectiles_raw (players c) rjs (projectiles c))
| AnimationFrame =>
  (** The queued [animate] runs: it re-requests (line 149), then draws. *)
  match fire_frame (loop c) with
  | Some l =>
      Normal (mk_client (animate_ops cv (players c) (projectiles c)).1 (labels c) (form_shown c)
                (projectiles c) (key_flags c) (inputs c) (counter c) (sent c) l)
  | None => Normal c
  end
| IntervalTick => Normal (with_seq (tick (to_seq c)) c)
| KeyDownEvent code =>
  Normal (mk_client (players c) (labels c) (form_shown c) (projectiles c)
            (on_keydown (players c) sid code (key_flags c)) (inputs c) (counter c) (sent c) (loop c))
| KeyUpEvent code =>
  Normal (mk_client (players c) (labels c) (form_shown c) (projectiles c)
            (on_keyup (players c) sid code (key_flags c)) (inputs c) (counter c) (sent c) (loop c))
| SubmitUsername u =>
  (** Lines 273-282: hide the form, emit [initGame] with the canvas size. *)
  Normal (mk_client (players c) (labels c) false (projectiles c) (key_flags c)
            (inputs c) (counter c)
            (sent c ++ [InitGame (width cv) (height cv) (ctx_scale cv) u]) (loop c))
end.

Inductive reachable : client -> Prop :=
| reach_init : reachable init
| reach_step c e : event_markup_free e = true -> reachable c -> reachable (final_state (client_step c e)).

(** Running a sequence of events from a state, and from the initial page. *)
Definition run_from (c : client) (es : list event) : client :=
fold_left (fun c e => final_state (client_step c e)) es c.

Definition run (es : list event) : client := run_from init es.

(** The client invariant: the player store and the rows agree, the
projectile store has no duplicate id, the input log is strictly
increasing and bounded by the counter, and every row's [data-score]
is an integer literal, the render loop is armed (the queued frame
callback is the one [animationId] holds), and every stored id can be
written into a selector verbatim. *)
Definition client_inv (c : client) : Prop :=
view_inv (to_view c) /\ js_wf (projectiles c) /\ seq_inv (to_seq c) /\ rows_typed (labels c) /\
loop_armed (loop c) /\ keys_markup_free (to_view c).

(** ** Lemmas *)

Lemma run_reachable es : forallb event_markup_free es = true -> reachable (run es).
Proof.
unfold run. cut (forall c, reachable c -> forallb event_markup_free es = true ->
  reachable (run_from c es)); [intros H; apply H, reach_init|].
induction es as [|e es IH]; intros c Hc Hes; simpl in *; [done|].
apply andb_prop in Hes as [He Hes]. apply IH; [by constructor|done].
Qed.

(** A step other than a player snapshot keeps the store's keys. *)
Lemma no_snapshot_keys c e :
no_snapshot e = true -> js_keys (players (final_state (client_step c e))) = js_keys (players c).
Proof.
intros He. destruct e; cbn [client_step]; try discriminate He; try reflexivity.
- by rewrite final_state_omap.
- case_match; simpl; [apply animate_players_keys|done].
Qed.

Lemma seq_inv_suffix k pre l n o :
seq_inv (mk_seq k (pre ++ l) n o) -> seq_inv (mk_seq k l n o).
Proof.
intros [Hs Hf]. split; simpl in *.
- by apply log_sorted_suffix in Hs.
- by apply Forall_app in Hf as [_ ?].
Qed.

Lemma updatePlayers_step_inv c bps :
client_inv c -> Markup.snapshot_markup_free bps = true ->
exists v, updatePlayers sid bps (to_view c) = Normal v /\ client_inv (with_view v c).
Proof.
intros (Hv & Hp & Hs & Ht & Hl & _) Hb.
destruct (updatePlayers_normal sid bps (to_view c) Hv) as (v & Hrun & Hv' & Hk).
pose proof (updatePlayers_typed sid bps (to_view c) Ht) as Ht'. rewrite Hrun in Ht'.
exists v. split; [done|]. split_and!; [by destruct v|done| |by destruct v|done|].
2: { destruct v. by apply (keys_markup_free_snapshot bps). }
destruct (updatePlayers_inputs_shrink _ _ _ _ Hrun) as [pre Hpre].
unfold to_seq. simpl. simpl in Hpre. unfold to_seq in Hs. rewrite Hpre in Hs.
by eapply seq_inv_suffix.
Qed.

(** ** Properties *)

(** Rule induction on [reachable]. *)
Lemma reachable_client_inv c : reachable c -> client_inv c.
Proof.
induction 1 as [|c e Hfree Hr IH].
- split_and!; [split; [constructor|done]|constructor|split; [constructor|constructor]|constructor| |done].
  by apply request_frame_armed.
- destruct e as [bps|rjs| | |code|code|u]; simpl.
+ destruct (updatePlayers_step_inv c bps IH Hfree) as (v & -> & Hv). exact Hv.
+ rewrite final_state_omap. destruct IH as (Hv & Hp & Hs & Ht & Hl & Hk).
  split_and!; try done. by apply updateProjectiles_raw_wf.
+ destruct (fire_frame (loop c)) as [l|] eqn:Hf; [|exact IH].
  destruct IH as ([Hw Hperm] & Hp & Hs & Ht & Hl & Hk). split_and!; try done.
  * split; unfold to_view, js_wf in *; simpl in *; rewrite animate_players_keys; done.
  * by apply (fire_frame_armed (loop c)).
  * unfold keys_markup_free, to_view in *. simpl. by rewrite animate_players_keys.
+ destruct IH as (Hv & Hp & Hs & Ht & Hl & Hk). split_and!; try done.
  by apply (tick_inv (to_seq c)) in Hs.
+ destruct IH as (Hv & Hp & Hs & Ht & Hl & Hk). by split_and!.
+ destruct IH as (Hv & Hp & Hs & Ht & Hl & Hk). by split_and!.
+ destruct IH as (Hv & Hp & Hs & Ht & Hl & Hk). by split_and!.
Qed.

(** One step other than a player snapshot, with the local player absent:
  the key flags do not change and the player stays absent. *)
Lemma absent_step_keys c e :
no_snapshot e = true -> js_has sid (players c) = false ->
key_flags (final_state (client_step c e)) = key_flags c /\
js_has sid (players (final_state (client_step c e))) = false.
Proof.
intros He Ha. split.
- destruct e; cbn [client_step] in *; try discriminate He; rewrite ?final_state_omap; try reflexivity.
  + by case_match.
  + apply tick_keys.
  + unfold on_keydown. by rewrite Ha.
  + unfold on_keyup. by rewrite Ha.
- apply not_true_iff_false. rewrite js_has_spec, no_snapshot_keys, <- js_has_spec by done.
  by rewrite Ha.
Qed.

(** C17: every reachable state satisfies the client invariant (rule
induction on [reachable]): the stores and rows agree, the input log is
ordered and bounded, the rows are typed, every stored id is
selector-safe, and an [animate] callback is always queued under the
handle [animationId] holds; no event of the client cancels the render
loop. *)
Theorem reachable_inv c : reachable c -> client_inv c.
Proof. apply reachable_client_inv. Qed.

(** C18: from a reachable state no callback throws on a player snapshot
without markup or a projectile snapshot whose entries all have their
[velocity]: the [querySelector] lookups of [updatePlayers] always find
their row, and line 45 always finds a velocity. *)
Theorem reachable_no_exception c e :
reachable c -> event_markup_free e = true -> event_wellformed e ->
exists c', client_step c e = Normal c'.
Proof.
intros Hr Hfree Hwf. apply reachable_client_inv in Hr.
destruct e as [bps|rjs| | |code|code|u]; simpl in *; try case_match; try by eexists.
- destruct (updatePlayers_step_inv c bps Hr Hfree) as (v & -> & _). by eexists.
- rewrite updateProjectiles_raw_wellformed by done. by eexists.
Qed.

(** C20: in every reachable state, a snapshot entry without markup for
    a known player does not throw and leaves the scoreboard in
    descending score order: the rows' [data-score] stay integer
    literals (the client invariant), so the sort of lines 86-105
    compares real numbers.  The rows of new players are appended
    unsorted (C14). *)
Theorem reachable_refresh_sorted c id bp :
  reachable c -> Markup.markup_free id = true -> Markup.plain (BackEndPlayer.username bp) = true ->
  js_has id (players c) = true ->
  exists v, upsert_player sid (id, bp) (to_view c) = Normal v /\ rows_sorted (playerLabels v).
Proof.
  intros Hr _ _ Hh. destruct (reachable_client_inv c Hr) as (Hv & _ & _ & Ht & _).
  destruct (upsert_player_step sid id bp (to_view c) Hv) as (v & Hs & _ & _).
  exists v. split; [done|]. by apply (upsert_known_sorts sid id bp (to_view c)).
Qed.

(** C19: once the local player is gone, no event but a player snapshot
  that brings it back changes the key flags: both key listeners return
  early, so a key held when the player was removed stays held, and
  every tick keeps logging and sending inputs for it (C5). *)
Theorem stuck_keys_frozen c es :
  js_has sid (players c) = false -> forallb no_snapshot es = true ->
  key_flags (run_from c es) = key_flags c /\ js_has sid (players (run_from c es)) = false.
Proof.
  revert c. induction es as [|e es IH]; intros c Ha Hes; simpl in *; [done|].
  apply andb_prop in Hes as [He Hes].
  destruct (absent_step_keys c e He Ha) as [Hk Ha'].
  destruct (IH _ Ha' Hes) as [Hk' Ha'']. split; [congruence|done].
Qed.
End Step.

Lemma reachable_no_exception_witness :
reachable "me" page1 (run "me" page1 stuck_trace) /\ event_markup_free (UpdatePlayersMsg []) = true /\
event_wellformed (UpdatePlayersMsg []) /\
exists c', client_step "me" page1 (run "me" page1 stuck_trace) (UpdatePlayersMsg []) = Normal c'.
Proof.
assert (Hr : reachable "me" page1 (run "me" page1 stuck_trace)) by (apply run_reachable; reflexivity).
split; [exact Hr|]. split; [reflexivity|]. split; [exact I|].
apply (reachable_no_exception "me" page1); [exact Hr|reflexivity|exact I].
Defined.

Lemma reachable_inv_witness :
reachable "me" page1 (run "me" page1 stuck_trace) /\ client_inv (run "me" page1 stuck_trace).
Proof.
assert (Hr : reachable "me" page1 (run "me" page1 stuck_trace)) by (apply run_reachable; reflexivity).
split; [exact Hr|]. apply (reachable_inv "me" page1). exact Hr.
Defined.

Lemma reachable_refresh_sorted_witness :
  reachable "me" page1 (run "me" page1 (firstn 2 stuck_trace)) /\
  Markup.markup_free "me" = true /\ Markup.plain (BackEndPlayer.username (BackEndPlayer.mk 90 100 "red" "u" 4 0)) = true /\
  js_has "me" (players (run "me" page1 (firstn 2 stuck_trace))) = true /\
  exists v, upsert_player "me" ("me", BackEndPlayer.mk 90 100 "red" "u" 4 0)
      (to_view (run "me" page1 (firstn 2 stuck_trace))) = Normal v /\
    rows_sorted (playerLabels v).
Proof.
  assert (Hr : reachable "me" page1 (run "me" page1 (firstn 2 stuck_trace))) by (apply run_reachable; reflexivity).
  split; [exact Hr|]. do 3 (split; [reflexivity|]).
  apply (reachable_refresh_sorted "me" page1); [exact Hr|reflexivity..].
Defined.

(** After the local player vanished with W held (the first five events
    of [stuck_trace]), a frame, the release of W and a tick leave W held. *)
Lemma stuck_keys_frozen_witness :
  js_has "me" (players (run "me" page1 (firstn 5 stuck_trace))) = false /\
  forallb no_snapshot [AnimationFrame; KeyUpEvent "KeyW"; IntervalTick] = true /\
  w (key_flags (run "me" page1 (firstn 5 stuck_trace))) = true /\
  (key_flags (run_from "me" page1 (run "me" page1 (firstn 5 stuck_trace))
                [AnimationFrame; KeyUpEvent "KeyW"; IntervalTick]) =
     key_flags (run "me" page1 (firstn 5 stuck_trace)) /\
   js_has "me" (players (run_from "me" page1 (run "me" page1 (firstn 5 stuck_trace))
                [AnimationFrame; KeyUpEvent "KeyW"; IntervalTick])) = false).
Proof.
  assert (Ha : js_has "me" (players (run "me" page1 (firstn 5 stuck_trace))) = false) by (vm_compute; reflexivity).
  split; [exact Ha|]. split; [reflexivity|]. split; [vm_compute; reflexivity|].
  apply (stuck_keys_frozen "me" page1); [exact Ha|reflexivity].
Defined.

End Client.
